(** * Working-with-Strings-in-C++: assignment 5 and its support library

    A shallow embedding of [assign5.cpp] (capitalize, removeCharacters,
    addCommas) and of two classes of [wclib/util.h]: the [Grid]
    container and the [Lexicon] with its merging iterator.

    Conventions.
    - A [std::string] is a [list ascii] and a [char] an [ascii].
      Strings compare on the unsigned byte ([char_code]); where the
      code promotes a [char] to [int] the value is that of a signed
      byte ([char_value]), as on x86-64.
    - [int] is a 32-bit two's complement integer, [size_t] a 64-bit
      unsigned one; both are carried in [Z] with the wrap-around written
      out where the code converts between them.
    - A call of [error] (which does not return) and an access outside an
      allocation are distinct outcomes of type [outcome].
    - Functions that util.h declares but whose bodies are not part of
      the repository are marked as modelled from the specification. *)

From Stdlib Require Import ZArith Lia Bool Ascii Sorted.
From stdpp Require Import base option list gmap sets strings pretty sorting.

Local Open Scope Z_scope.

(** ** Characters and strings *)

Definition str (s : string) : list ascii := String.list_ascii_of_string s.

Definition char_code (c : ascii) : Z := Z.of_N (N_of_ascii c).

Definition char_of_code (z : Z) : ascii := ascii_of_N (Z.to_N (z mod 256)).

(** A [char] promoted to [int]: [char] is a signed byte. *)
Definition char_value (c : ascii) : Z :=
  if char_code c <? 128 then char_code c else char_code c - 256.

Definition NUL : ascii := char_of_code 0.

Definition isUpperLetter (c : ascii) : bool :=
  (65 <=? char_code c) && (char_code c <=? 90).

Definition isLowerLetter (c : ascii) : bool :=
  (97 <=? char_code c) && (char_code c <=? 122).

Definition isLetter (c : ascii) : Prop :=
  isUpperLetter c = true \/ isLowerLetter c = true.

(** [std::string::operator<]: lexicographic on unsigned bytes, a proper
    prefix being smaller. *)
Fixpoint string_lt (a b : list ascii) : bool :=
  match a, b with
  | _, [] => false
  | [], _ :: _ => true
  | x :: a', y :: b' =>
      if char_code x <? char_code y then true
      else if char_code y <? char_code x then false
      else string_lt a' b'
  end.

(** [s[i]] as an rvalue: inside the string its character, at [size()]
    the terminator, further out nothing defined. *)
Definition string_at (s : list ascii) (i : nat) : option ascii :=
  if (i <? length s)%nat then s !! i
  else if (i =? length s)%nat then Some NUL
  else None.

(** [s[i] = c]: inside the string an update in place; the terminator may
    only be overwritten by itself. *)
Definition string_assign_at (s : list ascii) (i : nat) (c : ascii)
  : option (list ascii) :=
  if (i <? length s)%nat then Some (<[i:=c]> s)
  else if (i =? length s)%nat && bool_decide (c = NUL) then Some s
  else None.

(** [s.insert(pos, t)]: throws [std::out_of_range] when [pos > size()]. *)
Definition string_insert (s : list ascii) (pos : Z) (t : list ascii)
  : option (list ascii) :=
  if (0 <=? pos) && (pos <=? Z.of_nat (length s))
  then Some (take (Z.to_nat pos) s ++ t ++ drop (Z.to_nat pos) s)
  else None.

(** Conversions between the integer types of the code. *)
Definition wrap_size_t (z : Z) : Z := z mod 2 ^ 64.

Definition wrap_unsigned (z : Z) : Z := z mod 2 ^ 32.

Definition int_of_unsigned (z : Z) : Z :=
  let m := z mod 2 ^ 32 in if m <? 2 ^ 31 then m else m - 2 ^ 32.

(** ** Case conversion (strlib) *)

(** Modelled from the spec: [toLowerCase(char)] and [toUpperCase(char)] are
    declared in util.h and defined in a source file that is not part of
    the repository. The spec (section 6) gives the case folding as
    mapping uppercase ASCII letters to lowercase, identity otherwise;
    util.h documents [toUpperCase] as the converse. *)
Definition toLowerCase_char (c : ascii) : ascii :=
  if isUpperLetter c then char_of_code (char_code c + 32) else c.

(** Modelled from the spec: [toUpperCase(char)], declared in util.h and
    documented there as converting a lowercase character into its
    uppercase equivalent. *)
Definition toUpperCase_char (c : ascii) : ascii :=
  if isLowerLetter c then char_of_code (char_code c - 32) else c.

(** Modelled from the spec: [toLowerCase(const std::string&)], documented
    in util.h as returning a new string in which all uppercase
    characters have been converted into their lowercase equivalents. *)
Definition toLowerCase (s : list ascii) : list ascii :=
  map toLowerCase_char s.

(** ** assign5.cpp *)

Module Assign5.

(** Problem 1. *)
Definition capitalize (s : list ascii) : option (list ascii) :=
  let s := toLowerCase s in
  c ← string_at s 0;
  string_assign_at s 0 (toUpperCase_char c).

(** Problem 2.  [foundAny] is declared without an initialiser: until the
    loop assigns it, it holds no determinate value. *)
Inductive flag : Type :=
  | Indeterminate
  | Assigned (b : bool).

(** What a read of the flag produces; [junk] stands for whatever the
    uninitialised object happens to hold. *)
Definition read_flag (junk : bool) (f : flag) : bool :=
  match f with
  | Indeterminate => junk
  | Assigned b => b
  end.

Definition sentinel : list ascii :=
  str "Requested string 'remove' not found.".

Definition rem_of (remove : list ascii) : gset ascii :=
  foldl (fun rem c => {[ c ]} ∪ rem) ∅ remove.

Definition scan_step (rem : gset ascii) (st : list ascii * flag) (c : ascii)
  : list ascii * flag :=
  let is_in := bool_decide (c ∈ rem) in
  if negb is_in then (st.1 ++ [c], st.2) else (st.1, Assigned true).

(** The state [(res, foundAny)] when control reaches line 51. *)
Definition removeCharacters_scan (s remove : list ascii)
  : list ascii * flag :=
  foldl (scan_step (rem_of remove)) ([], Indeterminate) s.

Definition removeCharacters (junk : bool) (s remove : list ascii)
  : list ascii :=
  let st := removeCharacters_scan s remove in
  if negb (read_flag junk st.2) then sentinel else st.1.

(** Problem 3.  The loop variable is an [int] initialised from the
    unsigned [s.size() - 3]. *)
Fixpoint addCommas_loop (fuel : nat) (i : Z) (s : list ascii)
  : option (list ascii) :=
  if 0 <? i then
    match fuel with
    | O => None
    | S fuel' =>
        s' ← string_insert s i (str ",");
        addCommas_loop fuel' (i - 3) s'
    end
  else Some s.

Definition addCommas_start (s : list ascii) : Z :=
  int_of_unsigned (wrap_size_t (Z.of_nat (length s) - 3)).

Definition addCommas (s : list ascii) : option (list ascii) :=
  addCommas_loop (length s) (addCommas_start s) s.

(** The reading of the result that the specification gives: the
    characters cut from the right into groups of three, the leftmost
    group holding what is left over, and the groups joined by commas. *)
Fixpoint chunks3 (l : list ascii) : list (list ascii) :=
  match l with
  | a :: b :: c :: rest => [a; b; c] :: chunks3 rest
  | [] => []
  | short => [short]
  end.

Definition groupsFromRight (s : list ascii) : list (list ascii) :=
  rev (map (@rev ascii) (chunks3 (rev s))).

Definition joinCommas (gs : list (list ascii)) : list ascii :=
  match gs with
  | [] => []
  | g :: gs' => g ++ concat (map (fun g' => str "," ++ g') gs')
  end.

Definition comma : ascii := char_of_code 44.

Definition eraseCommas (s : list ascii) : list ascii :=
  filter (fun c => c ≠ comma) s.

End Assign5.

(** ** Outcomes of library calls *)

(** A call either returns, or ends in [error] (which exits the program),
    or steps outside what the language defines (a read or write outside
    an allocation, a signed overflow, a dereference of a dangling or null
    pointer). *)
Inductive outcome (A : Type) : Type :=
  | Ok (a : A)
  | Fatal (msg : string)
  | Undefined.
Arguments Ok {A} a.
Arguments Fatal {A} msg.
Arguments Undefined {A}.

#[global] Instance outcome_ret : MRet outcome := fun A a => Ok a.

#[global] Instance outcome_bind : MBind outcome := fun A B f m =>
  match m with
  | Ok a => f a
  | Fatal msg => Fatal msg
  | Undefined => Undefined
  end.

Definition of_option {A : Type} (o : option A) : outcome A :=
  match o with
  | Some a => Ok a
  | None => Undefined
  end.

Definition INT_MAX : Z := 2 ^ 31 - 1.

(** Signed [int] multiplication: defined only when the product fits. *)
Definition int_mul (a b : Z) : outcome Z :=
  if (- 2 ^ 31 <=? a * b) && (a * b <=? INT_MAX) then Ok (a * b) else Undefined.

(** [std::to_string(int)]: the decimal digits, after a minus sign for a
    negative number. *)
Definition to_string (n : Z) : string := pretty n.

(** [for (int i = 0; i < n; i++) body(i)] threading a state. *)
Fixpoint for_loop {S : Type} (n : nat) (body : Z -> S -> outcome S) (s : S)
  : outcome S :=
  match n with
  | O => Ok s
  | Datatypes.S n' =>
      s' ← for_loop n' body s;
      body (Z.of_nat n') s'
  end.

(** [for (int i = start; i < start + n; i++) body(i)] where the body may
    [return] a result, which ends the loop. *)
Fixpoint for_return {R : Type} (n : nat) (i : Z) (body : Z -> outcome (option R))
  : outcome (option R) :=
  match n with
  | O => Ok None
  | Datatypes.S n' =>
      r ← body i;
      match r with
      | Some x => Ok (Some x)
      | None => for_return n' (i + 1) body
      end
  end.

(** ** Grid (util.h) *)

Module Grid.

Definition loc := nat.

(** The instance variables of a [Grid<ValueType>]. *)
Record rep : Type := mkRep {
  elements : option loc;
  nRows : Z;
  nCols : Z
}.

Section GridOps.

Context {ValueType : Type}.
(** [ValueType()] *)
Variable value_init : ValueType.

(** The free store: the arrays made by [new ValueType[n]]. *)
Local Abbreviation heap := (gmap loc (list ValueType)).

(** Grid objects by address, and the arrays they point to. *)
Record store : Type := mkStore {
  objects : gmap loc rep;
  arrays : heap
}.

(** [new ValueType[n]].  The initial contents are never read by the
    code below before being assigned. *)
Definition new_array (h : heap) (n : Z) : heap * loc :=
  let p := fresh (dom h) in
  (<[p := replicate (Z.to_nat n) value_init]> h, p).

(** [delete[] p] *)
Definition delete_array (h : heap) (p : option loc) : outcome heap :=
  match p with
  | None => Ok h
  | Some a => if bool_decide (is_Some (h !! a)) then Ok (delete a h) else Undefined
  end.

(** [p[i]] as an rvalue and [p[i] = v]. *)
Definition load (h : heap) (p : option loc) (i : Z) : outcome ValueType :=
  match p with
  | None => Undefined
  | Some a =>
      match h !! a with
      | None => Undefined
      | Some arr => if 0 <=? i then of_option (arr !! Z.to_nat i) else Undefined
      end
  end.

Definition store_at (h : heap) (p : option loc) (i : Z) (v : ValueType)
  : outcome heap :=
  match p with
  | None => Undefined
  | Some a =>
      match h !! a with
      | None => Undefined
      | Some arr =>
          if (0 <=? i) && (i <? Z.of_nat (length arr))
          then Ok (<[a := <[Z.to_nat i := v]> arr]> h)
          else Undefined
      end
  end.

Definition numRows (g : rep) : Z := nRows g.

Definition numCols (g : rep) : Z := nCols g.

Definition inBounds (g : rep) (row col : Z) : bool :=
  (0 <=? row) && (0 <=? col) && (row <? nRows g) && (col <? nCols g).

Definition get (h : heap) (g : rep) (row col : Z) : outcome ValueType :=
  if negb (inBounds g row col) then Fatal "Grid::get: Grid indices out of bounds"
  else load h (elements g) (row * nCols g + col).

Definition set (h : heap) (g : rep) (row col : Z) (value : ValueType)
  : outcome heap :=
  if negb (inBounds g row col) then Fatal "Grid::set: Grid indices out of bounds"
  else store_at h (elements g) (row * nCols g + col) value.

(** [grid[row][col]]: [operator[]] only records the row, the check is in
    [GridRow::operator[]]. *)
Record GridRow : Type := mkGridRow { gp : rep; row_of : Z }.

Definition subscript (g : rep) (row : Z) : GridRow := mkGridRow g row.

Definition row_read (h : heap) (r : GridRow) (col : Z) : outcome ValueType :=
  if negb (inBounds (gp r) (row_of r) col)
  then Fatal "Grid::operator [][]: Grid index values out of range"
  else load h (elements (gp r)) (row_of r * nCols (gp r) + col).

Definition row_write (h : heap) (r : GridRow) (col : Z) (value : ValueType)
  : outcome heap :=
  if negb (inBounds (gp r) (row_of r) col)
  then Fatal "Grid::operator [][]: Grid index values out of range"
  else store_at h (elements (gp r)) (row_of r * nCols (gp r) + col) value.

(** [Grid::resize] *)
Definition resize (h : heap) (g : rep) (nRows' nCols' : Z) (retain : bool)
  : outcome (heap * rep) :=
  if (nRows' <? 0) || (nCols' <? 0)
  then Fatal ("Grid::resize: Attempt to resize grid to invalid size ("
              +:+ to_string nRows' +:+ ", " +:+ to_string nCols' +:+ ")")
  else
    let oldElements := elements g in
    let oldnRows := nRows g in
    let oldnCols := nCols g in
    n ← int_mul nRows' nCols';
    let '(h, p) := new_array h n in
    h ← for_loop (Z.to_nat n) (fun i h => store_at h (Some p) i value_init) h;
    h ← (if retain then
           let minRows := if oldnRows <? nRows' then oldnRows else nRows' in
           let minCols := if oldnCols <? nCols' then oldnCols else nCols' in
           for_loop (Z.to_nat minRows) (fun row h =>
             for_loop (Z.to_nat minCols) (fun col h =>
               v ← load h oldElements (row * oldnRows + col);
               store_at h (Some p) (row * nCols' + col) v) h) h
         else Ok h);
    h ← (match oldElements with
         | Some _ => delete_array h oldElements
         | None => Ok h
         end);
    Ok (h, mkRep (Some p) nRows' nCols').

(** [Grid::deepCopy]: the fields it gives [this]. *)
Definition deepCopy (h : heap) (grid : rep) : outcome (heap * rep) :=
  n ← int_mul (nRows grid) (nCols grid);
  let '(h, p) := new_array h n in
  h ← for_loop (Z.to_nat n) (fun i h =>
         v ← load h (elements grid) i;
         store_at h (Some p) i v) h;
  Ok (h, mkRep (Some p) (nRows grid) (nCols grid)).

(** [Grid & operator=(const Grid & src)] called on the object at [this]. *)
Definition assign (st : store) (this src : loc) : outcome store :=
  if bool_decide (this ≠ src) then
    g ← of_option (objects st !! this);
    s ← of_option (objects st !! src);
    h ← delete_array (arrays st) (elements g);
    '(h, g') ← deepCopy h s;
    Ok (mkStore (<[this := g']> (objects st)) h)
  else Ok st.

(** [Grid(const Grid & src)] constructing the object at [this]. *)
Definition copy_construct (st : store) (this src : loc) : outcome store :=
  s ← of_option (objects st !! src);
  '(h, g') ← deepCopy (arrays st) s;
  Ok (mkStore (<[this := g']> (objects st)) h).

(** [set] called on the object at [this]. *)
Definition set_obj (st : store) (this : loc) (row col : Z) (value : ValueType)
  : outcome store :=
  g ← of_option (objects st !! this);
  h ← set (arrays st) g row col value;
  Ok (mkStore (objects st) h).

(** The elements a grid object currently holds, in row-major order; a
    grid whose [elements] is null holds none. *)
Definition contents (st : store) (this : loc) : option (list ValueType) :=
  g ← objects st !! this;
  match elements g with
  | Some p => arrays st !! p
  | None => Some []
  end.

(** The representation invariant of a grid: its array is live and has
    [nRows * nCols] elements, a count that fits an [int]. *)
Definition rep_ok (h : heap) (g : rep) : Prop :=
  0 <= nRows g /\ 0 <= nCols g /\ nRows g * nCols g <= INT_MAX /\
  match elements g with
  | Some p =>
      exists arr, h !! p = Some arr
                  /\ Z.of_nat (length arr) = nRows g * nCols g
  | None => nRows g * nCols g = 0
  end.

Definition obj_ok (st : store) (a : loc) : Prop :=
  exists g, objects st !! a = Some g /\ rep_ok (arrays st) g.

(** Two grid objects own different arrays. *)
Definition separate (st : store) (a b : loc) : Prop :=
  forall ga gb p,
    objects st !! a = Some ga -> objects st !! b = Some gb ->
    elements ga = Some p -> elements gb ≠ Some p.

(** What it means for the object at [this] in [st'] to be an independent
    copy of the object at [src] as it was in [st]: same dimensions, same
    elements, the source untouched, and a later [set] on either of the
    two leaving the elements of the other as they were. *)
Definition independent_copy (st st' : store) (this src : loc) : Prop :=
  (exists g' s,
      objects st' !! this = Some g' /\ objects st !! src = Some s
      /\ nRows g' = nRows s /\ nCols g' = nCols s)
  /\ objects st' !! src = objects st !! src
  /\ contents st' this = contents st src
  /\ contents st' src = contents st src
  /\ (forall row col v st'',
        set_obj st' this row col v = Ok st'' ->
        contents st'' src = contents st' src)
  /\ (forall row col v st'',
        set_obj st' src row col v = Ok st'' ->
        contents st'' this = contents st' this).

(** [Grid()] *)
Definition empty_rep : rep := mkRep None 0 0.

(** [Grid(int nRows, int nCols)]: it sets [elements] to null and calls
    [resize], which saves the two size fields as the old size before
    anything has initialised them; [junkRows] and [junkCols] stand for
    what they hold. *)
Definition construct (h : heap) (junkRows junkCols nRows' nCols' : Z)
  : outcome (heap * rep) :=
  resize h (mkRep None junkRows junkCols) nRows' nCols' false.

(** [~Grid()] *)
Definition destroy (h : heap) (g : rep) : outcome heap :=
  match elements g with
  | Some _ => delete_array h (elements g)
  | None => Ok h
  end.

(** [Grid::fill] *)
Definition fill (h : heap) (g : rep) (value : ValueType) : outcome heap :=
  n ← int_mul (nRows g) (nCols g);
  for_loop (Z.to_nat n) (fun i h => store_at h (elements g) i value) h.

(** [Grid::mapAll], all three overloads: the values handed to [fn], in
    the order of the calls. *)
Definition mapAll (h : heap) (g : rep) : outcome (list ValueType) :=
  for_loop (Z.to_nat (nRows g)) (fun i acc =>
    for_loop (Z.to_nat (nCols g)) (fun j acc =>
      v ← get h g i j;
      Ok (acc ++ [v])) acc) [].

(** [operator!=] of the element type. *)
Variable value_ne : ValueType -> ValueType -> bool.

(** [Grid::equals], called on the object at [this] with [grid2]. *)
Definition equals (st : store) (this grid2 : loc) : outcome bool :=
  if bool_decide (this = grid2) then Ok true
  else
    g ← of_option (objects st !! this);
    g2 ← of_option (objects st !! grid2);
    if bool_decide (nRows g ≠ nRows g2) || bool_decide (nCols g ≠ nCols g2)
    then Ok false
    else
      r ← for_return (Z.to_nat (nRows g)) 0 (fun row =>
             for_return (Z.to_nat (nCols g)) 0 (fun col =>
               x ← get (arrays st) g row col;
               y ← get (arrays st) g2 row col;
               Ok (if value_ne x y then Some false else None)));
      Ok (default true r).

(** [operator==] and [operator!=] of grids. *)
Definition grid_eq (st : store) (this grid2 : loc) : outcome bool :=
  equals st this grid2.

Definition grid_ne (st : store) (this grid2 : loc) : outcome bool :=
  b ← equals st this grid2; Ok (negb b).

(** [Grid::iterator]: a grid pointer and an index into its array. *)
Record grid_iterator : Type := mkGridIterator {
  it_gp : loc;
  it_index : Z
}.

Definition grid_begin (this : loc) : grid_iterator := mkGridIterator this 0.

Definition grid_end (st : store) (this : loc) : outcome grid_iterator :=
  g ← of_option (objects st !! this);
  n ← int_mul (nRows g) (nCols g);
  Ok (mkGridIterator this n).

Definition grid_incr (it : grid_iterator) : grid_iterator :=
  mkGridIterator (it_gp it) (it_index it + 1).

Definition grid_iterator_eq (it rhs : grid_iterator) : bool :=
  bool_decide (it_gp it = it_gp rhs) && (it_index it =? it_index rhs).

Definition grid_deref (st : store) (it : grid_iterator) : outcome ValueType :=
  g ← of_option (objects st !! it_gp it);
  load (arrays st) (elements g) (it_index it).

(** [for (ValueType n : grid)]: the values the loop variable takes;
    [fuel] bounds the number of rounds. *)
Fixpoint grid_pass_loop (fuel : nat) (st : store) (it end_ : grid_iterator)
  : option (outcome (list ValueType)) :=
  if grid_iterator_eq it end_ then Some (Ok [])
  else
    match fuel with
    | O => None
    | S fuel' =>
        match grid_deref st it with
        | Ok v =>
            (fun r => ws ← r; Ok (v :: ws))
              <$> grid_pass_loop fuel' st (grid_incr it) end_
        | Fatal msg => Some (Fatal msg)
        | Undefined => Some Undefined
        end
    end.

Definition grid_pass (fuel : nat) (st : store) (this : loc)
  : option (outcome (list ValueType)) :=
  match grid_end st this with
  | Ok end_ => grid_pass_loop fuel st (grid_begin this) end_
  | Fatal msg => Some (Fatal msg)
  | Undefined => Some Undefined
  end.

End GridOps.

(** A 2 x 3 grid of integers, rows [10 11 12] and [13 14 15]. *)
Definition sample_heap : gmap loc (list Z) :=
  {[ 7%nat := [10; 11; 12; 13; 14; 15] ]}.

Definition sample_grid : rep := mkRep (Some 7%nat) 2 3.

(** That grid as the object at address 1, next to a default-constructed
    grid at address 2. *)
Definition sample_store : store (ValueType := Z) :=
  mkStore {[ 1%nat := sample_grid; 2%nat := mkRep None 0 0 ]} sample_heap.

End Grid.

(** ** Lexicon (util.h) *)

Module Lexicon.

Definition loc := nat.

(** One packed [Edge] record: a 5-bit letter, two flags, and the 24-bit
    index of the first child edge ([0]: no children). *)
Record Edge : Type := mkEdge {
  letter : Z;
  lastEdge : bool;
  accept : bool;
  children : nat
}.

(** The instance variables of a [Lexicon].  [start] is null or points
    into [edges]; [otherWords] lists the [std::set<std::string>] in the
    order its iterator visits it. *)
Record Lexicon : Type := mkLexicon {
  edges : list Edge;
  start : option nat;
  numEdges : Z;
  numDawgWords : Z;
  otherWords : list (list ascii)
}.

(** [tolower] of <cctype> in the "C" locale; every argument that is
    not an uppercase letter, a negative one included, comes back as it
    is. *)
Definition tolower (c : Z) : Z :=
  if (65 <=? c) && (c <=? 90) then c + 32 else c.

(** [ch] is promoted to [int] for [tolower], and the difference is
    converted to [unsigned int]. *)
Definition charToOrd (ch : ascii) : Z :=
  wrap_unsigned (tolower (char_value ch) - 97 + 1).

Definition ordToChar (ord : Z) : ascii :=
  char_of_code (wrap_unsigned (ord - 1 + 97)).

Record iterator : Type := mkIterator {
  lp : loc;
  index : Z;
  currentDawgPrefix : list ascii;
  currentSetWord : list ascii;
  edgePtr : option nat;
  stack : list nat;
  setIterator : nat;
  setEnd : nat
}.

Definition with_dawg (it : iterator) (prefix : list ascii)
    (e : option nat) (stk : list nat) : iterator :=
  mkIterator (lp it) (index it) prefix (currentSetWord it) e stk
    (setIterator it) (setEnd it).

Definition with_set (it : iterator) (w : list ascii) (pos : nat) : iterator :=
  mkIterator (lp it) (index it) (currentDawgPrefix it) w (edgePtr it)
    (stack it) pos (setEnd it).

Definition with_index (it : iterator) (i : Z) : iterator :=
  mkIterator (lp it) i (currentDawgPrefix it) (currentSetWord it)
    (edgePtr it) (stack it) (setIterator it) (setEnd it).

Section Traversal.

Variable lex : Lexicon.

(** Modelled from the spec: the bodies of [advanceToNextEdge],
    [advanceToNextWordInDawg] and [advanceToNextWordInSet] are declared in
    util.h and defined in a source file that is not part of the
    repository.  Section 4.1 of the spec gives the compressed store's
    ordered iteration as a depth-first traversal that visits the
    children of a node in sibling-run order and resumes from an explicit
    stack of pending sibling pointers plus the prefix accumulated so far.
    [popRun] climbs out of exhausted sibling runs: it pops the stack
    while the popped edge is the last of its run and stops at the next
    sibling of the first one that is not. *)
Fixpoint popRun (stk : list nat) (prefix : list ascii)
  : option (list ascii * option nat * list nat) :=
  match stk with
  | [] => Some (prefix, None, [])
  | top :: rest =>
      ed ← edges lex !! top;
      if lastEdge ed then popRun rest (removelast prefix)
      else Some (removelast prefix, Some (S top), rest)
  end.

(** Modelled from the spec: where the traversal goes from an edge [ep]
    that has no children, the next sibling if there is one, else up. *)
Definition unwind (ep : nat) (stk : list nat) (prefix : list ascii)
  : option (list ascii * option nat * list nat) :=
  ed ← edges lex !! ep;
  if lastEdge ed then popRun stk prefix
  else Some (prefix, Some (S ep), stk).

(** Modelled from the spec: one step of that depth-first traversal, down
    to the first child when there is one, else on to the next pending
    sibling. *)
Definition advanceToNextEdge (it : iterator) : option iterator :=
  ep ← edgePtr it;
  ed ← edges lex !! ep;
  if bool_decide (children ed = 0%nat) then
    '(prefix, e, stk) ← unwind ep (stack it) (currentDawgPrefix it);
    Some (with_dawg it prefix e stk)
  else
    Some (with_dawg it (currentDawgPrefix it ++ [ordToChar (letter ed)])
            (Some (children ed)) (ep :: stack it)).

(** Modelled from the spec: the traversal yields a word exactly when the
    edge being visited has [accept] set, so the cursor skips edges until
    it rests on an accepting one or runs off the end. *)
Fixpoint skipToAccept (fuel : nat) (it : iterator) : option iterator :=
  match edgePtr it with
  | None => Some it
  | Some ep =>
      ed ← edges lex !! ep;
      if accept ed then Some it
      else
        match fuel with
        | O => None
        | S fuel' => it' ← advanceToNextEdge it; skipToAccept fuel' it'
        end
  end.

(** Modelled from the spec: advance the compressed-store side by one
    word; a null [edgePtr] (as the constructor leaves it) starts the
    traversal at the root's children. *)
Definition advanceToNextWordInDawg (fuel : nat) (it : iterator)
  : option iterator :=
  it' ← match edgePtr it with
        | None =>
            Some (with_dawg it (currentDawgPrefix it) (start lex) (stack it))
        | Some _ => advanceToNextEdge it
        end;
  skipToAccept fuel it'.

(** Modelled from the spec: advance the dynamic-store side by one word in
    the set's native ascending order; the empty string marks exhaustion,
    as [operator++] and [operator*] test it. *)
Definition advanceToNextWordInSet (it : iterator) : option iterator :=
  if bool_decide (setIterator it = setEnd it)
  then Some (with_set it [] (setIterator it))
  else
    w ← otherWords lex !! setIterator it;
    Some (with_set it w (S (setIterator it))).

(** Modelled from the spec: [findEdgeForChar] and [traceToLastEdge]
    (section 4.1): scan the sibling run for an edge whose letter matches,
    stopping at the edge marked [lastEdge]; consume the word character by
    character from the root's children. *)
Fixpoint findEdgeForChar (fuel : nat) (e : nat) (ch : ascii) : option nat :=
  match fuel with
  | O => None
  | S fuel' =>
      ed ← edges lex !! e;
      if bool_decide (letter ed = charToOrd ch) then Some e
      else if lastEdge ed then None
      else findEdgeForChar fuel' (S e) ch
  end.

(** Modelled from the spec: the walk of [traceToLastEdge] from the run
    [run] on, [last] being the edge reached so far; it fails when a
    character has no matching sibling. *)
Fixpoint traceFrom (run : option nat) (s : list ascii) (last : option nat)
  : option nat :=
  match s with
  | [] => last
  | ch :: s' =>
      r ← run;
      e ← findEdgeForChar (length (edges lex)) r ch;
      ed ← edges lex !! e;
      traceFrom (if bool_decide (children ed = 0%nat) then None
                 else Some (children ed)) s' (Some e)
  end.

(** Modelled from the spec: [traceToLastEdge] returns the edge reached
    after consuming every character, or null. *)
Definition traceToLastEdge (s : list ascii) : option nat :=
  traceFrom (start lex) s None.

(** Modelled from the spec: membership in the compressed store succeeds
    iff the final edge's [accept] flag is set. *)
Definition dawgContains (w : list ascii) : bool :=
  match traceToLastEdge w with
  | Some e => from_option accept false (edges lex !! e)
  | None => false
  end.

(** Modelled from the spec: [size()] is declared in util.h and defined
    elsewhere.  Section 4.3: the cached compressed accepting-path count
    plus the dynamic-store count minus any words in the dynamic store
    that duplicate compressed-store entries. *)
Definition size : Z :=
  numDawgWords lex + Z.of_nat (length (otherWords lex))
  - Z.of_nat (length (filter (fun w => dawgContains w = true) (otherWords lex))).

(** [iterator(const Lexicon *lp, bool endFlag)]; [a] is the address of
    the lexicon.  With [endFlag] only [lp] and [index] are set; without
    it the fields are initialised ([iterator_init]) and both sides
    advanced to their first word. *)
Definition iterator_end (a : loc) : iterator :=
  mkIterator a size [] [] None [] 0 0.

Definition iterator_init (a : loc) : iterator :=
  mkIterator a 0 [] [] None [] 0 (length (otherWords lex)).

Definition iterator_begin (fuel : nat) (a : loc) : option iterator :=
  it ← advanceToNextWordInDawg fuel (iterator_init a);
  advanceToNextWordInSet it.

(** The test shared by [operator++] and [operator*]. *)
Definition dawgFirst (it : iterator) : bool :=
  bool_decide (currentSetWord it = [])
  || string_lt (currentDawgPrefix it) (currentSetWord it).


(** [iterator & operator++()] *)
Definition incr (fuel : nat) (it : iterator) : option iterator :=
  it' ← match edgePtr it with
        | None => advanceToNextWordInSet it
        | Some _ =>
            if dawgFirst it then advanceToNextWordInDawg fuel it
            else advanceToNextWordInSet it
        end;
  Some (with_index it' (index it' + 1)).

(** [std::string operator*()] *)
Definition deref (it : iterator) : option (list ascii) :=
  match edgePtr it with
  | None => Some (currentSetWord it)
  | Some ep =>
      if dawgFirst it then
        ed ← edges lex !! ep;
        Some (currentDawgPrefix it ++ [ordToChar (letter ed)])
      else Some (currentSetWord it)
  end.

(** [bool operator==(const iterator & rhs)] *)
Definition iterator_eq (it rhs : iterator) : bool :=
  bool_decide (lp it = lp rhs) && (index it =? index rhs).

(** [for (it = begin(); it != end(); ++it) yield *it]; [n] bounds the
    number of rounds. *)
Fixpoint pass_loop (n fuel : nat) (it end_ : iterator)
  : option (list (list ascii)) :=
  if iterator_eq it end_ then Some []
  else
    match n with
    | O => None
    | S n' =>
        w ← deref it;
        it' ← incr fuel it;
        ws ← pass_loop n' fuel it' end_;
        Some (w :: ws)
    end.

Definition pass (fuel : nat) (a : loc) : option (list (list ascii)) :=
  it ← iterator_begin fuel a;
  pass_loop fuel fuel it (iterator_end a).





End Traversal.

(** *** Well-formed compressed stores *)

(** The sibling run from edge [e] on ends inside the edge table, and so
    does every run below it: the traversal that starts at [e] is
    finite. *)
Inductive run_ok (lex : Lexicon) : nat -> Prop :=
  | run_ok_edge (e : nat) (ed : Edge) :
      edges lex !! e = Some ed ->
      (children ed ≠ 0%nat -> run_ok lex (children ed)) ->
      (lastEdge ed = false -> run_ok lex (S e)) ->
      run_ok lex e.

(** An edge on the iterator's stack: the run left pending behind it. *)
Definition pending_ok (lex : Lexicon) (s : nat) : Prop :=
  exists ed, edges lex !! s = Some ed
             /\ (lastEdge ed = false -> run_ok lex (S s)).






(** *** The words of a compressed store *)







(** *** Sample lexicons *)

Definition edge (c : ascii) (last acc : bool) (child : nat) : Edge :=
  mkEdge (charToOrd c) last acc child.

(** The lexicon of the specification's example: compressed data holding
    cat, car and cart, and care added at run time. *)
Definition cat_car_cart : Lexicon :=
  mkLexicon
    [ edge "c" true false 1;
      edge "a" true false 2;
      edge "r" false true 4;
      edge "t" true true 0;
      edge "t" true true 0 ]
    (Some 0%nat) 5 3 [str "care"].



End Lexicon.

(** The calls of the driver in [main]. *)

Example capitalize_viva :
  Assign5.capitalize (str "viva LAS vegas") = Some (str "Viva las vegas").
Proof. reflexivity. Qed.

Example capitalize_hello :
  Assign5.capitalize (str "hello WORLD") = Some (str "Hello world").
Proof. reflexivity. Qed.

Example removeCharacters_vowels (junk : bool) :
  Assign5.removeCharacters junk (str "counterrevolutionaries") (str "aeiou")
  = str "cntrrvltnrs".
Proof. destruct junk; vm_compute; reflexivity. Qed.

Example removeCharacters_hello (junk : bool) :
  Assign5.removeCharacters junk (str "hello") (str "llo") = str "he".
Proof. destruct junk; vm_compute; reflexivity. Qed.

Example addCommas_100 :
  Assign5.addCommas (str "100") = Some (str "100").
Proof. vm_compute. reflexivity. Qed.

Example addCommas_1200 :
  Assign5.addCommas (str "1200") = Some (str "1,200").
Proof. vm_compute. reflexivity. Qed.

Example addCommas_100000 :
  Assign5.addCommas (str "100000") = Some (str "100,000").
Proof. vm_compute. reflexivity. Qed.

Example addCommas_big :
  Assign5.addCommas (str "12345678910") = Some (str "12,345,678,910").
Proof. vm_compute. reflexivity. Qed.

(** * Properties *)

(** ** Characters *)

Lemma char_code_range (c : ascii) : 0 <= char_code c < 256.
Proof.
  unfold char_code. pose proof (N_ascii_bounded c). lia.
Qed.

Lemma char_code_of_code (z : Z) : char_code (char_of_code z) = z mod 256.
Proof.
  unfold char_code, char_of_code.
  assert (0 <= z mod 256 < 256) by (apply Z.mod_pos_bound; lia).
  rewrite N_ascii_embedding by lia. lia.
Qed.

Lemma char_of_code_code (c : ascii) : char_of_code (char_code c) = c.
Proof.
  unfold char_of_code. pose proof (char_code_range c).
  rewrite Z.mod_small by lia. unfold char_code.
  rewrite N2Z.id. apply ascii_N_embedding.
Qed.

Lemma char_code_inj (c d : ascii) : char_code c = char_code d -> c = d.
Proof.
  intros H. rewrite <- (char_of_code_code c), <- (char_of_code_code d).
  now rewrite H.
Qed.

Lemma toLowerCase_char_code (c : ascii) :
  char_code (toLowerCase_char c)
  = if isUpperLetter c then char_code c + 32 else char_code c.
Proof.
  unfold toLowerCase_char. destruct (isUpperLetter c) eqn:E; [|done].
  unfold isUpperLetter in E. rewrite char_code_of_code.
  apply Z.mod_small. lia.
Qed.

Lemma toLowerCase_char_not_upper (c : ascii) :
  isUpperLetter (toLowerCase_char c) = false.
Proof.
  unfold isUpperLetter at 1. rewrite toLowerCase_char_code.
  destruct (isUpperLetter c) eqn:E; unfold isUpperLetter in E; lia.
Qed.

(** ** capitalize *)

(** C10. For a non-empty string [s], [capitalize] returns
    [toLowerCase s] with its first character replaced by that
    character's uppercase equivalent; no character after the first is an
    uppercase letter; and the index 0 that is written lies inside the
    string. *)
Theorem capitalize_nonempty (s : list ascii) :
  s ≠ [] ->
  exists c rest,
    toLowerCase s = c :: rest
    /\ Assign5.capitalize s = Some (toUpperCase_char c :: rest)
    /\ Forall (fun x => isUpperLetter x = false) rest
    /\ (0 < length (toLowerCase s))%nat.
Proof.
  destruct s as [|x s]; [done|]. intros _.
  exists (toLowerCase_char x), (toLowerCase s). repeat split.
  - apply Forall_forall. intros y Hy. unfold toLowerCase in Hy.
    apply list_elem_of_In, in_map_iff in Hy. destruct Hy as (z & <- & _).
    apply toLowerCase_char_not_upper.
  - simpl. lia.
Qed.

Lemma capitalize_nonempty_witness :
  exists c rest,
    toLowerCase (str "hello WORLD") = c :: rest
    /\ Assign5.capitalize (str "hello WORLD") = Some (toUpperCase_char c :: rest)
    /\ Forall (fun x => isUpperLetter x = false) rest
    /\ (0 < length (toLowerCase (str "hello WORLD")))%nat.
Proof.
  apply (capitalize_nonempty (str "hello WORLD")). vm_compute. discriminate.
Defined.

(** ** removeCharacters *)

Section RemoveCharacters.

Import Assign5.

Lemma rem_of_acc (remove : list ascii) (acc : gset ascii) (c : ascii) :
  c ∈ foldl (fun rem c => {[ c ]} ∪ rem) acc remove <-> c ∈ acc \/ c ∈ remove.
Proof.
  revert acc. induction remove as [|x remove IH]; intros acc; simpl.
  - split; [by left | intros [H|H]; [done | by apply elem_of_nil in H]].
  - rewrite IH, elem_of_union, elem_of_singleton, elem_of_cons. tauto.
Qed.

Lemma elem_of_rem_of (remove : list ascii) (c : ascii) :
  c ∈ rem_of remove <-> c ∈ remove.
Proof.
  unfold rem_of. rewrite rem_of_acc. split; [|by right].
  intros [H|H]; [by apply elem_of_empty in H | done].
Qed.

Lemma scan_res (rem : gset ascii) (s acc : list ascii) (f : flag) :
  (foldl (scan_step rem) (acc, f) s).1 = acc ++ filter (fun c => c ∉ rem) s.
Proof.
  revert acc f. induction s as [|x s IH]; intros acc f; simpl.
  - by rewrite app_nil_r.
  - unfold scan_step at 2. simpl. case_bool_decide as Hx; simpl.
    + rewrite IH. rewrite filter_cons_False by (intros H; by apply H). done.
    + rewrite IH. rewrite filter_cons_True by done. by rewrite <- app_assoc.
Qed.

Lemma scan_flag_none (rem : gset ascii) (s acc : list ascii) (f : flag) :
  (forall c, c ∈ s -> c ∉ rem) ->
  (foldl (scan_step rem) (acc, f) s).2 = f.
Proof.
  revert acc f. induction s as [|x s IH]; intros acc f Hs; simpl; [done|].
  unfold scan_step at 2. simpl. case_bool_decide as Hx; simpl.
  - exfalso. apply (Hs x); [left | done].
  - apply IH. intros c Hc. apply Hs. by right.
Qed.

Lemma scan_flag_sticky (rem : gset ascii) (s acc : list ascii) :
  (foldl (scan_step rem) (acc, Assigned true) s).2 = Assigned true.
Proof.
  revert acc. induction s as [|x s IH]; intros acc; simpl; [done|].
  unfold scan_step at 2. simpl. case_bool_decide; simpl; apply IH.
Qed.

Lemma scan_flag_found (rem : gset ascii) (s acc : list ascii) (f : flag) :
  (exists c, c ∈ s /\ c ∈ rem) ->
  (foldl (scan_step rem) (acc, f) s).2 = Assigned true.
Proof.
  revert acc f. induction s as [|x s IH]; intros acc f (c & Hc & Hrem); simpl.
  - by apply elem_of_nil in Hc.
  - unfold scan_step at 2. simpl. case_bool_decide as Hx; simpl.
    + apply scan_flag_sticky.
    + apply IH. exists c. split; [|done].
      apply elem_of_cons in Hc as [->|Hc]; [done | done].
Qed.

Lemma scan_filter (s remove : list ascii) :
  (removeCharacters_scan s remove).1 = filter (fun c => c ∉ remove) s.
Proof.
  unfold removeCharacters_scan. rewrite scan_res. simpl.
  apply list_filter_iff. intros c. by rewrite elem_of_rem_of.
Qed.

(** When nothing matches, line 51 reads a flag that no statement has
    assigned, and the value returned follows what that read produces. *)
Lemma removeCharacters_no_match (s remove : list ascii) :
  (forall c, c ∈ remove -> c ∉ s) ->
  (removeCharacters_scan s remove).2 = Indeterminate
  /\ removeCharacters false s remove = sentinel
  /\ removeCharacters true s remove = s.
Proof.
  intros Hno.
  assert (Hflag : (removeCharacters_scan s remove).2 = Indeterminate).
  { apply scan_flag_none. intros c Hc Hrem. apply elem_of_rem_of in Hrem.
    by apply (Hno c). }
  split; [done|]. unfold removeCharacters. rewrite Hflag. simpl.
  split; [done|]. rewrite scan_filter.
  induction s as [|x s IH]; [done|].
  rewrite filter_cons_True.
  - f_equal. apply IH.
    + intros c Hc Hs. apply (Hno c Hc). by right.
    + apply scan_flag_none. intros c Hc Hrem. apply elem_of_rem_of in Hrem.
      apply (Hno c Hrem). by right.
  - intros Hx. apply (Hno x Hx). by left.
Qed.

(** C4. On the driver's own test input [removeCharacters("asdfg", "45")]
    control reaches the test of line 51 with [foundAny] never assigned:
    the sentinel is returned when the uninitialised object reads as
    false and the input string when it reads as true. *)
Theorem removeCharacters_reads_unassigned_flag :
  (removeCharacters_scan (str "asdfg") (str "45")).2 = Indeterminate
  /\ removeCharacters false (str "asdfg") (str "45") = sentinel
  /\ removeCharacters true (str "asdfg") (str "45") = str "asdfg"
  /\ str "asdfg" ≠ sentinel.
Proof.
  repeat split; try (vm_compute; reflexivity). vm_compute. discriminate.
Qed.

(** C5, as stated, fails: a character of [remove] occurs in the string
    and the call still returns the text of the sentinel. *)
Lemma removeCharacters_may_spell_sentinel :
  ~ (forall junk s remove,
        (exists c, c ∈ remove /\ c ∈ s) ->
        removeCharacters junk s remove = filter (fun c => c ∉ remove) s
        /\ removeCharacters junk s remove ≠ sentinel).
Proof.
  intros H.
  destruct (H false (sentinel ++ str "!") (str "!")) as [_ Hne].
  - exists (char_of_code 33). split.
    + vm_compute. left.
    + apply elem_of_app. right. vm_compute. left.
  - apply Hne. vm_compute. reflexivity.
Qed.

(** C5 (amended). When some character of [remove] occurs in [s], the
    flag has been assigned [true] by the time line 51 tests it, so line
    54 returns [res]: the subsequence of [s] of the characters that do
    not occur in [remove], in their original order, whatever the
    uninitialised flag held.  The result is the text of the sentinel only
    if that subsequence itself spells it. *)
Theorem removeCharacters_filters (junk : bool) (s remove : list ascii) :
  (exists c, c ∈ remove /\ c ∈ s) ->
  (removeCharacters_scan s remove).2 = Assigned true
  /\ removeCharacters junk s remove = filter (fun c => c ∉ remove) s
  /\ (removeCharacters junk s remove = sentinel
      <-> filter (fun c => c ∉ remove) s = sentinel).
Proof.
  intros (c & Hrem & Hs).
  assert (Hflag : (removeCharacters_scan s remove).2 = Assigned true).
  { apply scan_flag_found. exists c. split; [done|]. by apply elem_of_rem_of. }
  assert (Hres : removeCharacters junk s remove
                 = filter (fun c => c ∉ remove) s).
  { unfold removeCharacters. rewrite Hflag. simpl. apply scan_filter. }
  split; [done|]. split; [done|]. by rewrite Hres.
Qed.

Lemma removeCharacters_filters_witness :
  (removeCharacters_scan (str "hello") (str "llo")).2 = Assigned true
  /\ removeCharacters true (str "hello") (str "llo")
     = filter (fun c => c ∉ str "llo") (str "hello")
  /\ (removeCharacters true (str "hello") (str "llo") = sentinel
      <-> filter (fun c => c ∉ str "llo") (str "hello") = sentinel).
Proof.
  apply (removeCharacters_filters true (str "hello") (str "llo")).
  exists (char_of_code 108). split; vm_compute.
  - left.
  - right. right. left.
Defined.

End RemoveCharacters.
(** ** addCommas *)

Section AddCommas.

Import Assign5.

Lemma addCommas_start_small (s : list ascii) :
  Z.of_nat (length s) < 2 ^ 31 ->
  addCommas_start s = Z.of_nat (length s) - 3.
Proof.
  intros Hlen. unfold addCommas_start, wrap_size_t, int_of_unsigned.
  set (n := Z.of_nat (length s)) in *.
  assert (Hn : 0 <= n) by (subst n; lia).
  destruct (Z_lt_le_dec n 3) as [Hlt|Hge].
  - replace ((n - 3) mod 2 ^ 64) with (n - 3 + 2 ^ 64).
    2:{ apply Z.mod_unique with (q := -1); lia. }
    replace ((n - 3 + 2 ^ 64) mod 2 ^ 32) with (n - 3 + 2 ^ 32).
    2:{ apply Z.mod_unique with (q := 2 ^ 32 - 1); lia. }
    destruct (Z.ltb_spec (n - 3 + 2 ^ 32) (2 ^ 31)); lia.
  - rewrite (Z.mod_small (n - 3) (2 ^ 64)) by lia.
    rewrite (Z.mod_small (n - 3) (2 ^ 32)) by lia.
    destruct (Z.ltb_spec (n - 3) (2 ^ 31)); lia.
Qed.

Lemma split_last3 (p : list ascii) :
  (3 <= length p)%nat -> exists p1 a b c, p = p1 ++ [a; b; c].
Proof.
  intros Hlen. rewrite <- (rev_involutive p).
  assert (Hr : (3 <= length (rev p))%nat) by (by rewrite length_rev).
  destruct (rev p) as [|c [|b [|a r]]]; simpl in Hr; try lia.
  exists (rev r), a, b, c. simpl. by rewrite <- !app_assoc.
Qed.

(** Induction along the way the loop consumes the string: three
    characters at a time from the right. *)
Lemma from_right_ind (P : list ascii -> Prop) :
  P [] ->
  (forall p, (0 < length p <= 3)%nat -> P p) ->
  (forall p a b c, p ≠ [] -> P p -> P (p ++ [a; b; c])) ->
  forall p, P p.
Proof.
  intros Hnil Hshort Hstep p.
  induction p as [p IH] using (induction_ltof1 _ (@length ascii)).
  unfold ltof in IH.
  destruct (le_lt_dec (length p) 3) as [Hle|Hgt].
  - destruct p as [|x p]; [done|]. apply Hshort. simpl in *. lia.
  - destruct (split_last3 p) as (p1 & a & b & c & ->); [lia|].
    rewrite length_app in Hgt. simpl in Hgt.
    apply Hstep.
    + intros ->. simpl in Hgt. lia.
    + apply IH. rewrite length_app. simpl. lia.
Qed.

Lemma groupsFromRight_snoc (p : list ascii) (a b c : ascii) :
  groupsFromRight (p ++ [a; b; c]) = groupsFromRight p ++ [[a; b; c]].
Proof.
  unfold groupsFromRight. rewrite rev_app_distr. simpl. done.
Qed.

Lemma groupsFromRight_short (p : list ascii) :
  (0 < length p <= 3)%nat -> groupsFromRight p = [p].
Proof.
  destruct p as [|a [|b [|c [|d p]]]]; simpl; intros H; try lia; done.
Qed.

Lemma groupsFromRight_nonempty (p : list ascii) :
  p ≠ [] -> groupsFromRight p ≠ [].
Proof.
  induction p as [| p Hp | p a b c Hp IH] using from_right_ind; [done| |].
  - rewrite groupsFromRight_short by done. done.
  - intros _. rewrite groupsFromRight_snoc.
    destruct (groupsFromRight p); done.
Qed.

Lemma joinCommas_snoc (gs : list (list ascii)) (g : list ascii) :
  gs ≠ [] -> joinCommas (gs ++ [g]) = joinCommas gs ++ str "," ++ g.
Proof.
  destruct gs as [|g0 gs]; [done|]. intros _. simpl.
  rewrite map_app, concat_app. simpl. rewrite app_nil_r.
  by rewrite <- !app_assoc.
Qed.

Lemma joinCommas_groups_snoc (p : list ascii) (a b c : ascii) :
  p ≠ [] ->
  joinCommas (groupsFromRight (p ++ [a; b; c]))
  = joinCommas (groupsFromRight p) ++ str "," ++ [a; b; c].
Proof.
  intros Hp. rewrite groupsFromRight_snoc.
  apply joinCommas_snoc. by apply groupsFromRight_nonempty.
Qed.

Lemma joinCommas_groups_short (p : list ascii) :
  (length p <= 3)%nat -> joinCommas (groupsFromRight p) = p.
Proof.
  intros Hlen. destruct p as [|x p]; [done|].
  rewrite groupsFromRight_short by (simpl in *; lia).
  simpl. by rewrite app_nil_r.
Qed.

(** The loop, entered with the index three short of the end of the part
    [p] still to be grouped, groups [p] and leaves the rest alone. *)
Lemma addCommas_loop_groups (fuel : nat) (p q : list ascii) :
  (length p <= fuel)%nat ->
  addCommas_loop fuel (Z.of_nat (length p) - 3) (p ++ q)
  = Some (joinCommas (groupsFromRight p) ++ q).
Proof.
  revert p q. induction fuel as [|fuel IH]; intros p q Hfuel.
  - destruct p; [|simpl in Hfuel; lia]. done.
  - destruct (le_lt_dec (length p) 3) as [Hle|Hgt].
    + rewrite joinCommas_groups_short by done.
      simpl. destruct (Z.ltb_spec 0 (Z.of_nat (length p) - 3)); [lia|done].
    + destruct (split_last3 p) as (p1 & a & b & c & ->); [lia|].
      rewrite length_app in Hgt, Hfuel. simpl in Hgt, Hfuel.
      assert (Hp1 : p1 ≠ []) by (intros ->; simpl in Hgt; lia).
      rewrite joinCommas_groups_snoc by done.
      rewrite length_app. simpl length.
      replace (Z.of_nat (length p1 + 3) - 3) with (Z.of_nat (length p1)) by lia.
      simpl addCommas_loop.
      destruct (Z.ltb_spec 0 (Z.of_nat (length p1))) as [_|?];
        [|destruct p1; simpl in *; [done|lia]].
      unfold string_insert.
      rewrite !length_app. simpl length.
      destruct (Z.leb_spec 0 (Z.of_nat (length p1))); [|lia].
      destruct (Z.leb_spec (Z.of_nat (length p1))
                  (Z.of_nat (length p1 + 3 + length q))); [|lia].
      simpl. rewrite Nat2Z.id.
      rewrite <- !app_assoc.
      rewrite take_app_length, drop_app_length.
      specialize (IH p1 (str "," ++ [a; b; c] ++ q)).
      specialize (IH ltac:(lia)). simpl in IH |- *. by rewrite IH.
Qed.

Lemma concat_groupsFromRight (s : list ascii) :
  concat (groupsFromRight s) = s.
Proof.
  induction s as [| p Hp | p a b c Hp IH] using from_right_ind; [done| |].
  - rewrite groupsFromRight_short by done. simpl. by rewrite app_nil_r.
  - rewrite groupsFromRight_snoc, concat_app, IH. done.
Qed.

Lemma groupsFromRight_sizes (s : list ascii) :
  match groupsFromRight s with
  | [] => s = []
  | g :: gs =>
      (1 <= length g <= 3)%nat /\ Forall (fun g' => length g' = 3%nat) gs
  end.
Proof.
  induction s as [| p Hp | p a b c Hp IH] using from_right_ind; [done| |].
  - rewrite groupsFromRight_short by done. split; [lia | constructor].
  - rewrite groupsFromRight_snoc.
    destruct (groupsFromRight p) as [|g gs] eqn:E; [done|].
    simpl. destruct IH as [Hg Hgs]. split; [done|].
    apply Forall_app. split; [done|]. by repeat constructor.
Qed.

Lemma eraseCommas_app (a b : list ascii) :
  eraseCommas (a ++ b) = eraseCommas a ++ eraseCommas b.
Proof. apply filter_app. Qed.

Lemma eraseCommas_separators (gs : list (list ascii)) :
  eraseCommas (concat (map (fun g' => str "," ++ g') gs))
  = eraseCommas (concat gs).
Proof.
  induction gs as [|g gs IH]; [done|].
  rewrite map_cons, !concat_cons, !eraseCommas_app, IH. done.
Qed.

Lemma eraseCommas_joinCommas (gs : list (list ascii)) :
  eraseCommas (joinCommas gs) = eraseCommas (concat gs).
Proof.
  destruct gs as [|g gs]; [done|]. unfold joinCommas.
  rewrite concat_cons, !eraseCommas_app, eraseCommas_separators. done.
Qed.

Lemma eraseCommas_id (s : list ascii) : comma ∉ s -> eraseCommas s = s.
Proof.
  induction s as [|x s IH]; [done|]. intros Hs. unfold eraseCommas.
  rewrite filter_cons_True.
  - f_equal. apply IH. intros H. apply Hs. by right.
  - intros ->. apply Hs. by left.
Qed.

(** C9, as stated, fails for a string that already holds a comma:
    erasing the commas of the result does not give the string back. *)
Lemma addCommas_erase_loses_commas :
  addCommas (str "1,000") = Some (str "1,,000")
  /\ eraseCommas (str "1,,000") ≠ str "1,000".
Proof.
  split; [vm_compute; reflexivity|]. vm_compute. discriminate.
Qed.

(** C9 (amended). For every string [s] shorter than [2^31] characters
    (the loop index is an [int]), [addCommas s] returns the characters of
    [s] cut from the right into groups of exactly three, with a leftmost
    group of one to three characters (no group at all for the empty
    string), joined by single commas.  Hence the result starts as [s]
    does, erasing all commas from it yields [s] with its own commas
    erased, which is [s] when [s] holds no comma, and a string of at most
    three characters is returned unchanged. *)
Theorem addCommas_groups (s : list ascii) :
  Z.of_nat (length s) < 2 ^ 31 ->
  exists r,
    addCommas s = Some r
    /\ r = joinCommas (groupsFromRight s)
    /\ concat (groupsFromRight s) = s
    /\ match groupsFromRight s with
       | [] => s = []
       | g :: gs =>
           (1 <= length g <= 3)%nat
           /\ Forall (fun g' => length g' = 3%nat) gs
       end
    /\ head r = head s
    /\ eraseCommas r = eraseCommas s
    /\ (comma ∉ s -> eraseCommas r = s)
    /\ ((length s <= 3)%nat -> r = s).
Proof.
  intros Hlen. exists (joinCommas (groupsFromRight s)).
  assert (Herase : eraseCommas (joinCommas (groupsFromRight s))
                   = eraseCommas s).
  { by rewrite eraseCommas_joinCommas, concat_groupsFromRight. }
  split.
  { unfold addCommas. rewrite addCommas_start_small by done.
    rewrite <- (app_nil_r s) at 3.
    rewrite addCommas_loop_groups by done. by rewrite app_nil_r. }
  split; [done|]. split; [apply concat_groupsFromRight|].
  split; [apply groupsFromRight_sizes|].
  split.
  { pose proof (groupsFromRight_sizes s) as Hs.
    pose proof (concat_groupsFromRight s) as Hc.
    destruct (groupsFromRight s) as [|g gs]; [by subst|].
    destruct Hs as [Hg _]. simpl in Hc. rewrite <- Hc. simpl.
    destruct g; [simpl in Hg; lia | done]. }
  split; [done|]. split.
  { intros Hs. rewrite Herase. by apply eraseCommas_id. }
  apply joinCommas_groups_short.
Qed.

Lemma addCommas_groups_witness :
  exists r,
    addCommas (str "12345678910") = Some r
    /\ r = joinCommas (groupsFromRight (str "12345678910"))
    /\ concat (groupsFromRight (str "12345678910")) = str "12345678910"
    /\ match groupsFromRight (str "12345678910") with
       | [] => str "12345678910" = []
       | g :: gs =>
           (1 <= length g <= 3)%nat
           /\ Forall (fun g' => length g' = 3%nat) gs
       end
    /\ head r = head (str "12345678910")
    /\ eraseCommas r = eraseCommas (str "12345678910")
    /\ (comma ∉ str "12345678910" -> eraseCommas r = str "12345678910")
    /\ ((length (str "12345678910") <= 3)%nat -> r = str "12345678910").
Proof.
  apply (addCommas_groups (str "12345678910")). vm_compute. reflexivity.
Defined.

End AddCommas.
(** ** The letter codec of the lexicon *)

Section LetterCodec.

Import Lexicon.

Lemma tolower_letter (c : ascii) :
  isLetter c -> 97 <= tolower (char_code c) <= 122.
Proof.
  unfold isLetter, isUpperLetter, isLowerLetter, tolower.
  intros [H|H]; destruct ((65 <=? char_code c) && (char_code c <=? 90)) eqn:E;
    lia.
Qed.

Lemma tolower_toLowerCase_char (c : ascii) :
  char_of_code (tolower (char_code c)) = toLowerCase_char c.
Proof.
  unfold tolower, toLowerCase_char, isUpperLetter.
  destruct ((65 <=? char_code c) && (char_code c <=? 90)); [done|].
  apply char_of_code_code.
Qed.

Lemma char_value_7bit (c : ascii) :
  char_code c < 128 -> char_value c = char_code c.
Proof.
  intros H. unfold char_value. by destruct (Z.ltb_spec (char_code c) 128); [|lia].
Qed.

Lemma char_value_letter (c : ascii) : isLetter c -> char_value c = char_code c.
Proof.
  intros Hc. apply char_value_7bit.
  unfold isLetter, isUpperLetter, isLowerLetter in Hc. lia.
Qed.

(** A byte above 127 is a negative [char]: [tolower] leaves it as it
    is and the conversion to [unsigned int] wraps. *)
Lemma charToOrd_high_byte : charToOrd (char_of_code 255) = 2 ^ 32 - 97.
Proof. vm_compute. reflexivity. Qed.

Lemma charToOrd_letter (c : ascii) :
  isLetter c -> charToOrd c = tolower (char_code c) - 96.
Proof.
  intros Hc. unfold charToOrd. rewrite char_value_letter by done.
  apply tolower_letter in Hc.
  unfold wrap_unsigned. rewrite Z.mod_small; lia.
Qed.

Lemma ordToChar_code (ord : Z) :
  1 <= ord <= 26 -> char_code (ordToChar ord) = ord + 96.
Proof.
  intros Hord. unfold ordToChar, wrap_unsigned.
  rewrite char_code_of_code, (Z.mod_small (ord - 1 + 97)) by lia.
  rewrite Z.mod_small; lia.
Qed.

(** C7. For every ASCII letter [c] of either case, [charToOrd c] lies in
    1..26 and [ordToChar] takes it back to the lowercase of [c]; for
    every [ord] in 1..26, [ordToChar ord] is a lowercase letter whose
    [charToOrd] is [ord]; and two letters have the same code exactly when
    they agree up to case. *)
Theorem letter_codec_bijection :
  (forall c, isLetter c ->
     1 <= charToOrd c <= 26
     /\ ordToChar (charToOrd c) = char_of_code (tolower (char_code c))
     /\ ordToChar (charToOrd c) = toLowerCase_char c)
  /\ (forall ord, 1 <= ord <= 26 ->
        isLowerLetter (ordToChar ord) = true
        /\ charToOrd (ordToChar ord) = ord)
  /\ (forall c d, isLetter c -> isLetter d ->
        (charToOrd c = charToOrd d
         <-> toLowerCase_char c = toLowerCase_char d)).
Proof.
  assert (Hback : forall c, isLetter c ->
            ordToChar (charToOrd c) = char_of_code (tolower (char_code c))).
  { intros c Hc. rewrite charToOrd_letter by done.
    pose proof (tolower_letter c Hc).
    unfold ordToChar, wrap_unsigned. rewrite Z.mod_small by lia.
    f_equal. lia. }
  split; [|split].
  - intros c Hc. split; [|split].
    + rewrite charToOrd_letter by done. pose proof (tolower_letter c Hc). lia.
    + by apply Hback.
    + rewrite Hback by done. apply tolower_toLowerCase_char.
  - intros ord Hord. pose proof (ordToChar_code ord Hord) as Hcode.
    assert (Hlow : isLowerLetter (ordToChar ord) = true).
    { unfold isLowerLetter. rewrite Hcode. lia. }
    split; [done|].
    rewrite charToOrd_letter by (by right).
    unfold tolower. rewrite Hcode.
    destruct ((65 <=? ord + 96) && (ord + 96 <=? 90)) eqn:E; lia.
  - intros c d Hc Hd. rewrite <- !tolower_toLowerCase_char.
    rewrite !charToOrd_letter by done.
    pose proof (tolower_letter c Hc). pose proof (tolower_letter d Hd).
    split.
    + intros Heq. f_equal. lia.
    + intros Heq. apply (f_equal char_code) in Heq.
      rewrite !char_code_of_code, !Z.mod_small in Heq by lia. lia.
Qed.

Lemma letter_codec_bijection_witness :
  (1 <= charToOrd (char_of_code 81) <= 26
   /\ ordToChar (charToOrd (char_of_code 81)) = char_of_code 113)
  /\ charToOrd (ordToChar 17) = 17.
Proof.
  destruct letter_codec_bijection as (Hc & Hord & _).
  split.
  - destruct (Hc (char_of_code 81)) as (Hrange & Hback & _).
    + left. vm_compute. reflexivity.
    + split; [exact Hrange | exact Hback].
  - destruct (Hord 17) as [_ H]; [lia | exact H].
Defined.

End LetterCodec.
(** ** Grid: bounds-checked access *)

Section GridAccess.

Import Grid.

Context {ValueType : Type}.

Implicit Types (h : gmap loc (list ValueType)) (g : rep) (v : ValueType).

Lemma inBounds_spec g (row col : Z) :
  inBounds g row col = true
  <-> 0 <= row /\ 0 <= col /\ row < numRows g /\ col < numCols g.
Proof.
  unfold inBounds, numRows, numCols.
  rewrite !andb_true_iff, !Z.leb_le, !Z.ltb_lt. tauto.
Qed.

Lemma load_not_fatal h (p : option loc) (i : Z) (msg : string) :
  load h p i ≠ Fatal msg.
Proof.
  unfold load, of_option. repeat case_match; discriminate.
Qed.

Lemma store_at_not_fatal h (p : option loc) (i : Z) v (msg : string) :
  store_at h p i v ≠ Fatal msg.
Proof.
  unfold store_at. repeat case_match; discriminate.
Qed.

(** Inside the bounds of a grid that satisfies its invariant the
    row-major index falls inside the array. *)
Lemma index_in_range g (row col : Z) :
  0 <= nCols g -> inBounds g row col = true ->
  0 <= row * nCols g + col < nRows g * nCols g.
Proof.
  intros Hc Hin. apply inBounds_spec in Hin. unfold numRows, numCols in Hin.
  nia.
Qed.

Lemma load_in_range h (a : loc) (arr : list ValueType) (i : Z) :
  h !! a = Some arr -> 0 <= i < Z.of_nat (length arr) ->
  exists x, arr !! Z.to_nat i = Some x /\ load h (Some a) i = Ok x.
Proof.
  intros Ha Hi. destruct (lookup_lt_is_Some_2 arr (Z.to_nat i)) as [x Hx];
    [lia|].
  exists x. split; [done|]. unfold load. rewrite Ha.
  destruct (Z.leb_spec 0 i); [|lia]. by rewrite Hx.
Qed.

Lemma store_at_in_range h (a : loc) (arr : list ValueType) (i : Z) v :
  h !! a = Some arr -> 0 <= i < Z.of_nat (length arr) ->
  store_at h (Some a) i v = Ok (<[a := <[Z.to_nat i := v]> arr]> h).
Proof.
  intros Ha Hi. unfold store_at. rewrite Ha.
  destruct (Z.leb_spec 0 i); [|lia].
  destruct (Z.ltb_spec i (Z.of_nat (length arr))); [|lia]. done.
Qed.

(** C3. [inBounds] holds exactly for [0 <= row < numRows] and
    [0 <= col < numCols]; [get], [set] and both directions of
    [grid[row][col]] end in [error] exactly when the position is out of
    bounds; and on a grid that satisfies its invariant an in-bounds
    access returns, reading or writing the array element at index
    [row * nCols + col]. *)
Theorem grid_access_checked h g (row col : Z) v :
  (inBounds g row col = true
   <-> 0 <= row /\ 0 <= col /\ row < numRows g /\ col < numCols g)
  /\ ((exists msg, get h g row col = Fatal msg) <-> inBounds g row col = false)
  /\ ((exists msg, set h g row col v = Fatal msg)
      <-> inBounds g row col = false)
  /\ ((exists msg, row_read h (subscript g row) col = Fatal msg)
      <-> inBounds g row col = false)
  /\ ((exists msg, row_write h (subscript g row) col v = Fatal msg)
      <-> inBounds g row col = false)
  /\ (rep_ok h g -> inBounds g row col = true ->
      exists p arr x,
        elements g = Some p /\ h !! p = Some arr
        /\ arr !! Z.to_nat (row * nCols g + col) = Some x
        /\ get h g row col = Ok x
        /\ row_read h (subscript g row) col = Ok x
        /\ set h g row col v
           = Ok (<[p := <[Z.to_nat (row * nCols g + col) := v]> arr]> h)
        /\ row_write h (subscript g row) col v
           = Ok (<[p := <[Z.to_nat (row * nCols g + col) := v]> arr]> h)).
Proof.
  split; [apply inBounds_spec|].
  unfold get, set, row_read, row_write, subscript. simpl.
  destruct (inBounds g row col) eqn:Hin; simpl.
  - repeat split; try done;
      try (intros [msg H]; exfalso; revert H;
           first [apply load_not_fatal | apply store_at_not_fatal]).
    intros (Hr & Hc & Hmax & Harr) _.
    pose proof (index_in_range g row col Hc Hin) as Hidx.
    destruct (elements g) as [p|] eqn:Hp; [|lia].
    destruct Harr as (arr & Ha & Hlen).
    destruct (load_in_range h p arr (row * nCols g + col) Ha) as (x & Hx & Hl);
      [lia|].
    exists p, arr, x. repeat split; try done;
      apply store_at_in_range; [done | lia | done | lia].
  - repeat split; try done; try (intros _; by eexists).
Qed.

End GridAccess.

Lemma grid_access_checked_witness :
  Grid.get Grid.sample_heap Grid.sample_grid 1 2 = Ok 15
  /\ Grid.set Grid.sample_heap Grid.sample_grid 1 2 99
     = Ok (<[7%nat := [10; 11; 12; 13; 14; 99]]> Grid.sample_heap)
  /\ (exists msg, Grid.get Grid.sample_heap Grid.sample_grid 2 0 = Fatal msg).
Proof.
  destruct (grid_access_checked Grid.sample_heap Grid.sample_grid 1 2 99)
    as (_ & _ & _ & _ & _ & Hin).
  destruct Hin as (p & arr & x & Hp & Harr & Hx & Hget & _ & Hset & _).
  - unfold Grid.rep_ok. simpl. repeat split; try (vm_compute; congruence).
    exists [10; 11; 12; 13; 14; 15]. split; [|reflexivity].
    apply lookup_singleton_eq.
  - reflexivity.
  - simpl in Hp. injection Hp as <-.
    unfold Grid.sample_heap in Harr. rewrite lookup_singleton_eq in Harr.
    injection Harr as <-. simpl in Hx. injection Hx as <-.
    split; [exact Hget|]. split; [exact Hset|].
    destruct (grid_access_checked Grid.sample_heap Grid.sample_grid 2 0 99)
      as (_ & Hfatal & _).
    apply Hfatal. reflexivity.
Defined.

(** ** Grid: resize *)

(** The message of a refused [resize] names the two sizes asked for. *)
Lemma resize_invalid_size_message :
  Grid.resize 0 Grid.sample_heap Grid.sample_grid (-1) 3 true
  = Fatal "Grid::resize: Attempt to resize grid to invalid size (-1, 3)".
Proof. vm_compute. reflexivity. Qed.

(** C8. Resizing the 2 x 3 grid with rows [10 11 12] and [13 14 15] to
    its own size with [retain] set returns, and the second row of the
    result is [12 13 14]: position (1, 0) held 13 before and holds 12
    after.  The inner loop reads [oldElements[row * oldnRows + col]],
    striding the old array by its row count. *)
Theorem resize_retain_strides_by_rows :
  Grid.resize 0 Grid.sample_heap Grid.sample_grid 2 3 true
  = Ok ({[ 8%nat := [10; 11; 12; 12; 13; 14] ]}, Grid.mkRep (Some 8%nat) 2 3)
  /\ Grid.get Grid.sample_heap Grid.sample_grid 1 0 = Ok 13
  /\ Grid.get {[ 8%nat := [10; 11; 12; 12; 13; 14] ]}
       (Grid.mkRep (Some 8%nat) 2 3) 1 0 = Ok 12.
Proof. repeat split; vm_compute; reflexivity. Qed.

(** ** Grid: deep copy *)

Lemma for_loop_S {S : Type} (n : nat) (body : Z -> S -> outcome S) (s : S) :
  for_loop (Datatypes.S n) body s = for_loop n body s ≫= body (Z.of_nat n).
Proof. reflexivity. Qed.

Lemma outcome_bind_Ok {A B : Type} (f : A -> outcome B) (a : A) :
  Ok a ≫= f = f a.
Proof. reflexivity. Qed.

Section GridCopy.

Import Grid.

Context {ValueType : Type}.
Variable d : ValueType.

Implicit Types (h : gmap loc (list ValueType)) (g s : rep)
  (st : store (ValueType := ValueType)) (arr : list ValueType).

Lemma int_mul_fits (a b : Z) :
  0 <= a * b <= INT_MAX -> int_mul a b = Ok (a * b).
Proof.
  intros H. unfold int_mul.
  destruct (Z.leb_spec (- 2 ^ 31) (a * b)); [|lia].
  destruct (Z.leb_spec (a * b) INT_MAX); [done|lia].
Qed.

(** After [k] rounds of the copy loop the new array holds the first [k]
    elements of the source. *)
Lemma copy_loop_prefix h (p q : loc) arr (k : nat) :
  h !! q = Some arr -> p ≠ q -> (k <= length arr)%nat ->
  for_loop k (fun i h' => v ← load h' (Some q) i; store_at h' (Some p) i v)
    (<[p := replicate (length arr) d]> h)
  = Ok (<[p := take k arr ++ replicate (length arr - k) d]> h).
Proof.
  intros Hq Hpq. induction k as [|k IH]; intros Hk.
  - simpl. by rewrite Nat.sub_0_r.
  - rewrite for_loop_S, IH, outcome_bind_Ok by lia.
    destruct (lookup_lt_is_Some_2 arr k) as [x Hx]; [lia|].
    unfold load. rewrite lookup_insert_ne by done. rewrite Hq.
    destruct (Z.leb_spec 0 (Z.of_nat k)); [|lia].
    rewrite Nat2Z.id, Hx. simpl.
    unfold store_at. rewrite lookup_insert_eq.
    rewrite length_app, length_take, length_replicate.
    destruct (Z.leb_spec 0 (Z.of_nat k)); [|lia].
    destruct (Z.ltb_spec (Z.of_nat k)
                (Z.of_nat (k `min` length arr + (length arr - k))));
      [|lia].
    simpl. rewrite insert_insert_eq, Nat2Z.id. do 2 f_equal.
    rewrite insert_app_r_alt by (rewrite length_take; lia).
    rewrite length_take, Nat.min_l by lia. rewrite Nat.sub_diag.
    replace (length arr - k)%nat with (S (length arr - S k)) by lia.
    simpl. rewrite (take_S_r arr k x Hx), <- app_assoc. done.
Qed.

(** What a grid holds, read through its representation. *)
Lemma rep_ok_array h s :
  rep_ok h s ->
  exists arr,
    match elements s with
    | Some q => h !! q = Some arr
    | None => arr = []
    end
    /\ Z.of_nat (length arr) = nRows s * nCols s.
Proof.
  intros (_ & _ & _ & Harr). destruct (elements s) as [q|].
  - destruct Harr as (arr & Hq & Hlen). by exists arr.
  - exists []. split; [done|]. simpl. lia.
Qed.

Lemma deepCopy_ok h s arr :
  rep_ok h s ->
  match elements s with
  | Some q => h !! q = Some arr
  | None => arr = []
  end ->
  Z.of_nat (length arr) = nRows s * nCols s ->
  deepCopy d h s
  = Ok (<[fresh (dom h) := arr]> h,
        mkRep (Some (fresh (dom h))) (nRows s) (nCols s)).
Proof.
  intros (Hr & Hc & Hmax & _) Harr Hlen. unfold deepCopy.
  rewrite int_mul_fits, outcome_bind_Ok by lia.
  unfold new_array. cbv beta iota zeta. rewrite <- Hlen, Nat2Z.id.
  destruct (elements s) as [q|] eqn:Hq.
  - assert (Hpq : fresh (dom h) ≠ q).
    { intros Heq. apply (is_fresh (dom h)). rewrite Heq.
      apply elem_of_dom. by eexists. }
    rewrite (copy_loop_prefix h _ q arr (length arr)) by done.
    rewrite outcome_bind_Ok, firstn_all, Nat.sub_diag. simpl.
    by rewrite app_nil_r.
  - subst arr. done.
Qed.

Lemma set_frame h h' g (row col : Z) (v : ValueType) (q : loc) :
  set h g row col v = Ok h' -> elements g ≠ Some q -> h' !! q = h !! q.
Proof.
  unfold set, store_at. intros H Hq.
  repeat case_match; simplify_eq.
  rewrite lookup_insert_ne; [done|]. intros ->. done.
Qed.

(** [set] on one grid object leaves alone what another one holds, as
    long as the two own different arrays. *)
Lemma set_obj_other st st' (a b : loc) (row col : Z) (v : ValueType) :
  set_obj st a row col v = Ok st' -> separate st a b ->
  objects st' = objects st /\ contents st' b = contents st b.
Proof.
  unfold set_obj. intros H Hsep.
  destruct (objects st !! a) as [ga|] eqn:Ha; [|done]. simpl in H.
  destruct (set (arrays st) ga row col v) as [h'| |] eqn:Hset; [|done|done].
  simpl in H. injection H as <-. simpl. split; [done|].
  unfold contents. simpl.
  destruct (objects st !! b) as [gb|] eqn:Hb; [|done]. simpl.
  destruct (elements gb) as [q|] eqn:Hq; [|done].
  apply (set_frame _ _ _ _ _ _ _ Hset).
  intros Hga. by apply (Hsep ga gb q).
Qed.

(** The store after a deep copy of [s] into the object at [this], on a
    heap [h1] in which the array of [s] is live. *)
Lemma deepCopy_store (objs : gmap loc rep) h h1 s (this src : loc) arr :
  this ≠ src -> objs !! src = Some s -> rep_ok h1 s ->
  match elements s with
  | Some q => h1 !! q = Some arr /\ h !! q = Some arr
  | None => arr = []
  end ->
  Z.of_nat (length arr) = nRows s * nCols s ->
  let st0 := mkStore objs h in
  let st' := mkStore (<[this := mkRep (Some (fresh (dom h1))) (nRows s) (nCols s)]> objs)
                     (<[fresh (dom h1) := arr]> h1) in
  (exists g', objects st' !! this = Some g'
              /\ nRows g' = nRows s /\ nCols g' = nCols s)
  /\ objects st' !! src = Some s
  /\ contents st' this = contents st0 src
  /\ contents st' src = contents st0 src
  /\ separate st' this src /\ separate st' src this.
Proof.
  intros Hne Hsrc Hok Harr Hlen st0 st'.
  set (p := fresh (dom h1)) in *.
  assert (Hfresh : h1 !! p = None).
  { apply not_elem_of_dom. apply is_fresh. }
  assert (Hthis : objects st' !! this = Some (mkRep (Some p) (nRows s) (nCols s))).
  { simpl. apply lookup_insert_eq. }
  assert (Hsrc' : objects st' !! src = Some s).
  { simpl. by rewrite lookup_insert_ne. }
  assert (Hc0 : contents st0 src = Some arr).
  { unfold contents. simpl. rewrite Hsrc. simpl.
    destruct (elements s); [by destruct Harr | by subst]. }
  split; [by eexists|]. split; [done|]. split; [|split; [|split]].
  - rewrite Hc0. unfold contents. rewrite Hthis. simpl.
    apply lookup_insert_eq.
  - rewrite Hc0. unfold contents. rewrite Hsrc'. simpl.
    destruct (elements s) as [q|] eqn:Hq; [|by subst].
    destruct Harr as [Hq1 _]. rewrite lookup_insert_ne; [done|].
    intros Heq. rewrite Heq, Hq1 in Hfresh. done.
  - intros ga gb q Ha Hb Hga Hgb. rewrite Hthis in Ha. rewrite Hsrc' in Hb.
    simplify_eq. simpl in Hga. injection Hga as <-.
    rewrite Hgb in Harr. destruct Harr as [Hq1 _].
    rewrite Hq1 in Hfresh. done.
  - intros ga gb q Ha Hb Hga Hgb. rewrite Hthis in Hb. rewrite Hsrc' in Ha.
    simplify_eq. simpl in Hgb. injection Hgb as <-.
    rewrite Hga in Harr. destruct Harr as [Hq1 _].
    rewrite Hq1 in Hfresh. done.
Qed.

Lemma deepCopy_independent (objs : gmap loc rep) h h1 s (this src : loc) arr :
  this ≠ src -> objs !! src = Some s -> rep_ok h1 s ->
  match elements s with
  | Some q => h1 !! q = Some arr /\ h !! q = Some arr
  | None => arr = []
  end ->
  Z.of_nat (length arr) = nRows s * nCols s ->
  independent_copy (mkStore objs h)
    (mkStore (<[this := mkRep (Some (fresh (dom h1))) (nRows s) (nCols s)]> objs)
             (<[fresh (dom h1) := arr]> h1))
    this src.
Proof.
  intros Hne Hsrc Hok Harr Hlen.
  destruct (deepCopy_store objs h h1 s this src arr Hne Hsrc Hok Harr Hlen)
    as ((g' & Hg' & Hrows & Hcols) & Hsrc' & Hthis & Hsame & Hsep1 & Hsep2).
  unfold independent_copy. split; [by exists g', s|].
  split; [by rewrite Hsrc'|]. split; [done|]. split; [done|]. split.
  - intros row col v st'' Hset.
    by destruct (set_obj_other _ _ this src row col v Hset Hsep1).
  - intros row col v st'' Hset.
    by destruct (set_obj_other _ _ src this row col v Hset Hsep2).
Qed.

(** C6. Assigning one grid to a different one, and copy-constructing a
    grid, both return and leave the target an independent deep copy of
    the source: same row count, column count and elements, the source
    unchanged, and a later [set] on either grid changing no element of
    the other.  Assigning a grid to itself changes nothing at all. *)
Theorem grid_deep_copy :
  (forall st (this src : loc),
      this ≠ src -> obj_ok st this -> obj_ok st src -> separate st this src ->
      exists st', assign d st this src = Ok st'
                  /\ independent_copy st st' this src)
  /\ (forall st (this src : loc),
        objects st !! this = None -> obj_ok st src ->
        exists st', copy_construct d st this src = Ok st'
                    /\ independent_copy st st' this src)
  /\ (forall st (a : loc), assign d st a a = Ok st).
Proof.
  split; [|split].
  - intros [objs h] this src Hne (g & Hg & Hgok) (s & Hs & Hsok) Hsep.
    simpl in *.
    destruct (rep_ok_array h s Hsok) as (arr & Harr & Hlen).
    unfold assign. rewrite bool_decide_true by done. cbn [objects arrays].
    rewrite Hg, Hs. unfold of_option. rewrite !outcome_bind_Ok.
    assert (exists h1,
              delete_array h (elements g) = Ok h1
              /\ rep_ok h1 s
              /\ match elements s with
                 | Some q => h1 !! q = Some arr /\ h !! q = Some arr
                 | None => arr = []
                 end) as (h1 & Hdel & Hok1 & Harr1).
    { unfold rep_ok in Hgok, Hsok |- *.
      destruct (elements g) as [pg|] eqn:Hpg.
      - destruct Hgok as (_ & _ & _ & (arrg & Hpg' & _)).
        exists (delete pg h). simpl.
        rewrite bool_decide_true by (by eexists). split; [done|].
        assert (Hq : forall q, elements s = Some q -> delete pg h !! q = h !! q).
        { intros q Hq. apply lookup_delete_ne. intros ->.
          by apply (Hsep g s _ Hg Hs Hpg). }
        split.
        + destruct Hsok as (? & ? & ? & Hs4). repeat split; try done.
          destruct (elements s) as [q|]; [|done].
          destruct Hs4 as (arr' & ? & ?). exists arr'.
          by rewrite Hq.
        + destruct (elements s) as [q|]; [|done]. by rewrite Hq.
      - exists h. simpl. split; [done|]. split; [done|].
        destruct (elements s); done. }
    rewrite Hdel, outcome_bind_Ok.
    rewrite (deepCopy_ok h1 s arr Hok1) by (destruct (elements s); tauto).
    rewrite outcome_bind_Ok. eexists. split; [done|].
    by apply deepCopy_independent.
  - intros [objs h] this src Hnew (s & Hs & Hsok). simpl in *.
    assert (Hne : this ≠ src) by (intros ->; congruence).
    destruct (rep_ok_array h s Hsok) as (arr & Harr & Hlen).
    unfold copy_construct. cbn [objects arrays]. rewrite Hs.
    unfold of_option. rewrite outcome_bind_Ok.
    rewrite (deepCopy_ok h s arr Hsok) by done.
    rewrite outcome_bind_Ok. eexists. split; [done|].
    apply deepCopy_independent; try done.
    destruct (elements s); done.
  - intros st a. unfold assign. rewrite bool_decide_false; [done|].
    intros H. by apply H.
Qed.

End GridCopy.

Lemma grid_deep_copy_witness :
  exists st', Grid.assign 0 Grid.sample_store 2%nat 1%nat = Ok st'
              /\ Grid.independent_copy Grid.sample_store st' 2%nat 1%nat.
Proof.
  destruct (grid_deep_copy 0) as (Hassign & _ & _).
  apply (Hassign Grid.sample_store 2%nat 1%nat).
  - lia.
  - exists (Grid.mkRep None 0 0). split; [reflexivity|].
    unfold Grid.rep_ok. simpl. unfold INT_MAX. lia.
  - exists Grid.sample_grid. split; [reflexivity|].
    unfold Grid.rep_ok. simpl. unfold INT_MAX.
    repeat split; try lia.
    exists [10; 11; 12; 13; 14; 15]. split; reflexivity.
  - intros ga gb p Ha Hb Hga Hgb.
    change (Some (Grid.mkRep None 0 0) = Some ga) in Ha.
    injection Ha as <-. discriminate Hga.
Defined.

(** ** Lexicon: the merging iterator *)

Section LexiconMerge.

Import Lexicon.

Variable lex : Lexicon.


(** *** Each helper moves one side of the merge only *)







End LexiconMerge.

(** ** Lexicon: a full pass returns *)

Section LexiconTotal.

Import Lexicon.

Variable lex : Lexicon.

Lemma run_ok_pending (e : nat) : run_ok lex e -> pending_ok lex e.
Proof. intros [e' ed Hed _ Hs]. by exists ed. Qed.

Lemma with_dawg_twice (it : iterator) p e s p' e' s' :
  with_dawg (with_dawg it p e s) p' e' s' = with_dawg it p' e' s'.
Proof. reflexivity. Qed.






(** What the traversal does next once the run at hand is used up. *)
Local Abbreviation resume it stk prefix f :=
  (match popRun lex stk prefix with
   | Some (p, e', s) => skipToAccept lex f (with_dawg it p e' s)
   | None => None
   end).
















End LexiconTotal.

(** ** Lexicon: a pass interleaves the two stores *)

Section LexiconInterleave.

Import Lexicon.

Variable lex : Lexicon.

Local Arguments Nat.min : simpl never.
Local Arguments Z.of_nat : simpl never.
Local Arguments Z.add : simpl never.

(** *** More fuel changes nothing *)




(** *** The compressed-store side reads its own fields only *)

Local Abbreviation rebase base it :=
  (with_dawg base (currentDawgPrefix it) (edgePtr it) (stack it)).








(** *** What [operator*] yields on either turn *)









End LexiconInterleave.
(** ** Lexicon: what the traversal of the compressed store yields *)

Section LexiconWords.

Import Lexicon.

Variable lex : Lexicon.












End LexiconWords.
(** ** Lexicon: the words of a well-formed compressed store *)

Section LexiconOrder.

Import Lexicon.

Variable lex : Lexicon.













End LexiconOrder.

(** ** Lexicon: the claims *)

Section LexiconClaims.

Import Lexicon.

Variable lex : Lexicon.


End LexiconClaims.





(** C1. The pass is not alphabetical.  On the lexicon of the
    specification's own example (compressed data holding cat, car and
    cart, then [add("care")]) a full pass yields car, cart, cat, care
    where the alphabetical order is car, care, cart, cat.  After car
    the candidate of the compressed store is cart, held as the prefix
    "car" and the letter of the current edge, and the candidate of the
    set is care: [operator*] and [operator++] compare the prefix with
    the set word, find "car" below "care", and so yield cart and
    advance the compressed-store side although care is below cart; care
    stays pending until the compressed store is exhausted. *)
Theorem iteration_not_alphabetical :
  Lexicon.pass Lexicon.cat_car_cart 10 0%nat
  = Some [str "car"; str "cart"; str "cat"; str "care"]
  /\ Lexicon.size Lexicon.cat_car_cart = 4
  /\ Lexicon.otherWords Lexicon.cat_car_cart = [str "care"]
  /\ Lexicon.dawgContains Lexicon.cat_car_cart (str "car") = true
  /\ Lexicon.dawgContains Lexicon.cat_car_cart (str "cart") = true
  /\ Lexicon.dawgContains Lexicon.cat_car_cart (str "cat") = true
  /\ Lexicon.dawgContains Lexicon.cat_car_cart (str "care") = false
  /\ string_lt (str "care") (str "cart") = true
  /\ exists it0 it1 it2,
      Lexicon.iterator_begin Lexicon.cat_car_cart 10 0%nat = Some it0
      /\ Lexicon.deref Lexicon.cat_car_cart it0 = Some (str "car")
      /\ Lexicon.incr Lexicon.cat_car_cart 10 it0 = Some it1
      /\ Lexicon.currentDawgPrefix it1 = str "car"
      /\ Lexicon.currentSetWord it1 = str "care"
      /\ string_lt (Lexicon.currentDawgPrefix it1) (Lexicon.currentSetWord it1)
         = true
      /\ Lexicon.deref Lexicon.cat_car_cart it1 = Some (str "cart")
      /\ Lexicon.incr Lexicon.cat_car_cart 10 it1 = Some it2
      /\ Lexicon.currentSetWord it2 = str "care"
      /\ Lexicon.setIterator it2 = Lexicon.setIterator it1
      /\ Lexicon.deref Lexicon.cat_car_cart it2 = Some (str "cat").
Proof.
  do 8 (split; [vm_compute; reflexivity|]).
  eexists _, _, _.
  do 10 (split; [vm_compute; reflexivity|]).
  vm_compute; reflexivity.
Qed.



(** * Further properties *)

(** ** assign5.cpp *)

Section MoreCapitalize.

Import Assign5.

Lemma toLowerCase_char_idem (c : ascii) :
  toLowerCase_char (toLowerCase_char c) = toLowerCase_char c.
Proof.
  unfold toLowerCase_char at 1.
  by rewrite toLowerCase_char_not_upper.
Qed.

Lemma toUpperCase_char_code (c : ascii) :
  char_code (toUpperCase_char c)
  = if isLowerLetter c then char_code c - 32 else char_code c.
Proof.
  unfold toUpperCase_char. destruct (isLowerLetter c) eqn:E; [|done].
  unfold isLowerLetter in E. rewrite char_code_of_code.
  apply Z.mod_small. lia.
Qed.

(** Folding to lowercase and raising again is stable after one round. *)
Lemma upper_lower_stable (c : ascii) :
  toUpperCase_char (toLowerCase_char (toUpperCase_char (toLowerCase_char c)))
  = toUpperCase_char (toLowerCase_char c).
Proof.
  apply char_code_inj.
  rewrite !toUpperCase_char_code.
  unfold isLowerLetter. rewrite !toLowerCase_char_code.
  unfold isUpperLetter. rewrite !toUpperCase_char_code.
  unfold isLowerLetter. rewrite !toLowerCase_char_code.
  unfold isUpperLetter.
  pose proof (char_code_range c).
  repeat match goal with
         | |- context [if ?b then _ else _] => destruct b eqn:?
         end; lia.
Qed.

(** X1. On a non-empty string [capitalize] keeps the length and is
    idempotent: capitalizing its result changes nothing. *)
Theorem capitalize_idempotent (s : list ascii) :
  s ≠ [] ->
  exists r,
    capitalize s = Some r
    /\ length r = length s
    /\ capitalize r = Some r.
Proof.
  destruct s as [|x s]; [done|]. intros _.
  exists (toUpperCase_char (toLowerCase_char x) :: toLowerCase s).
  split; [done|]. split.
  { simpl. unfold toLowerCase. by rewrite length_map. }
  unfold capitalize, toLowerCase. simpl.
  rewrite upper_lower_stable. unfold string_assign_at. simpl.
  do 2 f_equal. rewrite map_map. apply map_ext. intros c.
  apply toLowerCase_char_idem.
Qed.

Lemma capitalize_idempotent_witness :
  exists r,
    capitalize (str "viva LAS vegas") = Some r
    /\ length r = length (str "viva LAS vegas")
    /\ capitalize r = Some r.
Proof.
  apply (capitalize_idempotent (str "viva LAS vegas")).
  vm_compute. discriminate.
Defined.

End MoreCapitalize.

Section MoreRemoveCharacters.

Import Assign5.

(** X2. [removeCharacters] uses [remove] as a set: two removal strings
    with the same characters, in any order and multiplicity, give the
    same result. *)
Theorem removeCharacters_remove_is_a_set (junk : bool)
    (s remove1 remove2 : list ascii) :
  (forall c, c ∈ remove1 <-> c ∈ remove2) ->
  removeCharacters junk s remove1 = removeCharacters junk s remove2.
Proof.
  intros Hsame.
  assert (Hrem : rem_of remove1 = rem_of remove2).
  { apply set_eq. intros c. by rewrite !elem_of_rem_of. }
  unfold removeCharacters, removeCharacters_scan. by rewrite Hrem.
Qed.

Lemma removeCharacters_remove_is_a_set_witness :
  removeCharacters false (str "hello") (str "llo")
  = removeCharacters false (str "hello") (str "ol").
Proof.
  apply (removeCharacters_remove_is_a_set false (str "hello")
           (str "llo") (str "ol")).
  intros c. unfold str. simpl.
  rewrite !elem_of_cons, !elem_of_nil. tauto.
Defined.

(** X3. The test of line 51 reads [foundAny] without any statement
    having assigned it exactly when no character of [remove] occurs in
    [s], which includes every call with an empty argument; the call
    then returns the sentinel when the uninitialised object reads as
    false and [s] unchanged when it reads as true. *)
Theorem removeCharacters_without_match (s remove : list ascii) :
  ((removeCharacters_scan s remove).2 = Indeterminate
   <-> forall c, c ∈ remove -> c ∉ s)
  /\ ((forall c, c ∈ remove -> c ∉ s) ->
      removeCharacters false s remove = sentinel
      /\ removeCharacters true s remove = s).
Proof.
  split; [split|].
  - intros Hflag c Hrem Hs.
    assert (Hset : (removeCharacters_scan s remove).2 = Assigned true).
    { apply scan_flag_found. exists c. split; [done|].
      by apply elem_of_rem_of. }
    congruence.
  - intros Hno. by destruct (removeCharacters_no_match s remove Hno).
  - intros Hno.
    by destruct (removeCharacters_no_match s remove Hno) as (_ & ? & ?).
Qed.

Lemma removeCharacters_without_match_witness :
  removeCharacters false (str "asdfg") [] = sentinel
  /\ removeCharacters true (str "asdfg") [] = str "asdfg".
Proof.
  apply (proj2 (removeCharacters_without_match (str "asdfg") [])).
  intros c Hc. by apply elem_of_nil in Hc.
Defined.

Lemma filter_drops_one {A : Type} (P : A -> Prop) `{!forall x, Decision (P x)}
    (l : list A) (x : A) :
  x ∈ l -> ~ P x -> (length (filter P l) < length l)%nat.
Proof.
  induction l as [|y l IH]; intros Hx Hnot.
  - by apply elem_of_nil in Hx.
  - destruct (decide (P y)) as [Hy|Hy].
    + rewrite filter_cons_True by done. simpl.
      apply elem_of_cons in Hx as [->|Hx]; [done|].
      specialize (IH Hx Hnot). lia.
    + rewrite filter_cons_False by done. simpl.
      pose proof (length_filter P l). lia.
Qed.

(** X4. When some character of [remove] occurs in [s], the result holds
    no character of [remove], is a subsequence of [s], and is strictly
    shorter than [s]. *)
Theorem removeCharacters_removes (junk : bool) (s remove : list ascii) :
  (exists c, c ∈ remove /\ c ∈ s) ->
  (forall c, c ∈ removeCharacters junk s remove -> c ∈ s /\ c ∉ remove)
  /\ sublist (removeCharacters junk s remove) s
  /\ (length (removeCharacters junk s remove) < length s)%nat.
Proof.
  intros (c & Hrem & Hs).
  assert (Hres : removeCharacters junk s remove
                 = filter (fun c => c ∉ remove) s).
  { assert (Hflag : (removeCharacters_scan s remove).2 = Assigned true).
    { apply scan_flag_found. exists c. split; [done|].
      by apply elem_of_rem_of. }
    unfold removeCharacters. rewrite Hflag. simpl. apply scan_filter. }
  rewrite Hres. split; [|split].
  - intros x Hx. apply list_elem_of_filter in Hx. tauto.
  - apply sublist_filter.
  - apply (filter_drops_one _ s c); [done|]. intros H. by apply H.
Qed.

Lemma removeCharacters_removes_witness :
  (forall c, c ∈ removeCharacters true (str "hello") (str "llo") ->
             c ∈ str "hello" /\ c ∉ str "llo")
  /\ sublist (removeCharacters true (str "hello") (str "llo")) (str "hello")
  /\ (length (removeCharacters true (str "hello") (str "llo"))
      < length (str "hello"))%nat.
Proof.
  apply (removeCharacters_removes true (str "hello") (str "llo")).
  exists (char_of_code 108). split; vm_compute.
  - left.
  - right. right. left.
Defined.

End MoreRemoveCharacters.

Section MoreAddCommas.

Import Assign5.

Lemma joinCommas_groups_length (s : list ascii) :
  length (joinCommas (groupsFromRight s))
  = (length s + (length s - 1) / 3)%nat.
Proof.
  induction s as [| p Hp | p a b c Hp IH] using from_right_ind; [done| |].
  - rewrite joinCommas_groups_short by lia.
    rewrite (Nat.div_small (length p - 1) 3) by lia. lia.
  - rewrite joinCommas_groups_snoc by done.
    rewrite !length_app, IH. simpl length.
    assert (0 < length p)%nat by (destruct p; [done | simpl; lia]).
    replace (length p + 3 - 1)%nat with (length p - 1 + 1 * 3)%nat by lia.
    rewrite Nat.div_add by lia. lia.
Qed.

(** X5. For a string of [n < 2^31] characters [addCommas] returns a
    string of [n + (n - 1) / 3] characters: it inserts one comma for
    every full group of three that has a character to its left. *)
Theorem addCommas_length (s : list ascii) :
  Z.of_nat (length s) < 2 ^ 31 ->
  exists r,
    addCommas s = Some r
    /\ length r = (length s + (length s - 1) / 3)%nat.
Proof.
  intros Hlen. exists (joinCommas (groupsFromRight s)). split.
  - unfold addCommas. rewrite addCommas_start_small by done.
    rewrite <- (app_nil_r s) at 3.
    rewrite addCommas_loop_groups by done. by rewrite app_nil_r.
  - apply joinCommas_groups_length.
Qed.

Lemma addCommas_length_witness :
  exists r,
    addCommas (str "12345678910") = Some r
    /\ length r = (length (str "12345678910")
                   + (length (str "12345678910") - 1) / 3)%nat.
Proof.
  apply (addCommas_length (str "12345678910")). vm_compute. reflexivity.
Defined.

Lemma comma_positions (s : list ascii) :
  comma ∉ s ->
  forall i : nat,
    rev (joinCommas (groupsFromRight s)) !! i = Some comma
    <-> (i < length (joinCommas (groupsFromRight s)))%nat /\ (i mod 4 = 3)%nat.
Proof.
  induction s as [| p Hp | p a b c Hp IH] using from_right_ind; intros Hs i.
  - simpl. split; [done | intros [H _]; lia].
  - rewrite joinCommas_groups_short by lia. split.
    + intros Hi. exfalso. apply Hs.
      apply list_elem_of_lookup_2, list_elem_of_In, in_rev in Hi.
      by apply list_elem_of_In.
    + intros [Hi Hmod]. rewrite Nat.mod_small in Hmod by lia. lia.
  - rewrite joinCommas_groups_snoc by done.
    assert (Hp' : comma ∉ p).
    { intros H. apply Hs. apply elem_of_app. by left. }
    assert (Habc : a ≠ comma /\ b ≠ comma /\ c ≠ comma).
    { repeat split; intros ->; apply Hs; apply elem_of_app; right;
        rewrite !elem_of_cons; tauto. }
    destruct Habc as (Ha & Hb & Hc).
    specialize (IH Hp').
    rewrite !rev_app_distr, length_app. simpl rev. simpl length.
    change ([c; b; a] ++ rev (str ","))%list with [c; b; a; comma].
    destruct (le_lt_dec 4 i) as [Hge|Hlt].
    + rewrite lookup_app_r by (simpl; lia). simpl length.
      rewrite (IH (i - 4)%nat).
      assert (Hmod : ((i - 4) mod 4 = i mod 4)%nat).
      { rewrite <- (Nat.Div0.mod_add (i - 4) 1 4). f_equal. lia. }
      rewrite Hmod. split; intros [? ?]; split; lia.
    + destruct i as [|[|[|[|i]]]]; simpl; try lia.
      * split; [intros [= ?]; done | intros [_ H]; done].
      * split; [intros [= ?]; done | intros [_ H]; done].
      * split; [intros [= ?]; done | intros [_ H]; done].
      * split; [intros _; split; [lia | done] | done].
Qed.

(** X6. For a comma-free string of fewer than [2^31] characters the
    commas of the result sit exactly at the positions that are 3 modulo
    4 counted from the right: after every third character from the
    right and nowhere else. *)
Theorem addCommas_comma_positions (s : list ascii) :
  Z.of_nat (length s) < 2 ^ 31 -> comma ∉ s ->
  exists r,
    addCommas s = Some r
    /\ forall i : nat,
         rev r !! i = Some comma
         <-> (i < length r)%nat /\ (i mod 4 = 3)%nat.
Proof.
  intros Hlen Hs. exists (joinCommas (groupsFromRight s)). split.
  - unfold addCommas. rewrite addCommas_start_small by done.
    rewrite <- (app_nil_r s) at 3.
    rewrite addCommas_loop_groups by done. by rewrite app_nil_r.
  - by apply comma_positions.
Qed.

Lemma addCommas_comma_positions_witness :
  exists r,
    addCommas (str "1200") = Some r
    /\ forall i : nat,
         rev r !! i = Some comma
         <-> (i < length r)%nat /\ (i mod 4 = 3)%nat.
Proof.
  apply (addCommas_comma_positions (str "1200")).
  - vm_compute. reflexivity.
  - unfold str. simpl. rewrite !elem_of_cons, elem_of_nil.
    intros [H|[H|[H|[H|[]]]]]; discriminate H.
Defined.

End MoreAddCommas.

(** ** Grid *)

Section MoreGrid.

Import Grid.

Context {ValueType : Type}.
Variable d : ValueType.

Implicit Types (h : gmap loc (list ValueType)) (g : rep) (v : ValueType)
  (arr : list ValueType).

(** Two positions inside the bounds fall on the same array element only
    if they are the same position. *)
Lemma index_injective g (row col row' col' : Z) :
  inBounds g row col = true -> inBounds g row' col' = true ->
  row * nCols g + col = row' * nCols g + col' ->
  row = row' /\ col = col'.
Proof.
  intros H H' Heq. apply inBounds_spec in H, H'.
  unfold numRows, numCols in *.
  assert (row = row') by nia. split; [done|]. subst. lia.
Qed.

Lemma rep_ok_live h g (row col : Z) :
  rep_ok h g -> inBounds g row col = true ->
  exists p arr,
    elements g = Some p /\ h !! p = Some arr
    /\ Z.of_nat (length arr) = nRows g * nCols g
    /\ 0 <= row * nCols g + col < Z.of_nat (length arr).
Proof.
  intros (Hr & Hc & Hmax & Harr) Hin.
  pose proof (index_in_range g row col Hc Hin) as Hidx.
  destruct (elements g) as [p|]; [|lia].
  destruct Harr as (arr & Hp & Hlen). exists p, arr.
  repeat split; try done; lia.
Qed.

Lemma get_live h g (p : loc) arr (row col : Z) :
  elements g = Some p -> h !! p = Some arr -> inBounds g row col = true ->
  0 <= row * nCols g + col ->
  get h g row col = of_option (arr !! Z.to_nat (row * nCols g + col)).
Proof.
  intros Hp Ha Hin Hidx. unfold get, load. rewrite Hin, Hp, Ha. simpl.
  by destruct (Z.leb_spec 0 (row * nCols g + col)); [|lia].
Qed.

(** X7. On a grid that satisfies its invariant, [set] at a position
    inside the bounds returns and keeps the invariant; a [get] (or a
    subscript read) of that position then returns the value written,
    every other position reads as before, and no other array of the
    heap changes. *)
Theorem grid_set_then_get h g (row col : Z) v :
  rep_ok h g -> inBounds g row col = true ->
  exists h',
    set h g row col v = Ok h'
    /\ rep_ok h' g
    /\ get h' g row col = Ok v
    /\ row_read h' (subscript g row) col = Ok v
    /\ (forall row' col',
          inBounds g row' col' = true -> (row', col') ≠ (row, col) ->
          get h' g row' col' = get h g row' col')
    /\ (forall q, elements g ≠ Some q -> h' !! q = h !! q).
Proof.
  intros Hok Hin.
  destruct (rep_ok_live h g row col Hok Hin)
    as (p & arr & Hp & Ha & Hlen & Hidx).
  set (i := Z.to_nat (row * nCols g + col)).
  exists (<[p := <[i := v]> arr]> h).
  assert (Hset : set h g row col v = Ok (<[p := <[i := v]> arr]> h)).
  { unfold set. rewrite Hin, Hp. simpl. by apply store_at_in_range. }
  assert (Hget : forall row' col',
             inBounds g row' col' = true ->
             get (<[p := <[i := v]> arr]> h) g row' col'
             = of_option (<[i := v]> arr !! Z.to_nat (row' * nCols g + col'))).
  { intros row' col' Hin'.
    destruct (rep_ok_live h g row' col' Hok Hin') as (? & ? & ? & ? & ? & ?).
    apply (get_live _ g p); [done | apply lookup_insert_eq | done | lia]. }
  assert (Hread : get (<[p := <[i := v]> arr]> h) g row col = Ok v).
  { rewrite Hget by done. fold i.
    rewrite list_lookup_insert_eq by (subst i; lia). done. }
  split; [done|]. split; [|split; [done|split; [|split]]].
  - destruct Hok as (Hr & Hc & Hmax & _). repeat split; try done.
    rewrite Hp. exists (<[i := v]> arr).
    split; [apply lookup_insert_eq | by rewrite length_insert].
  - unfold row_read, subscript. simpl. unfold get in Hread.
    by destruct (negb (inBounds g row col)).
  - intros row' col' Hin' Hne. rewrite Hget by done.
    destruct (rep_ok_live h g row' col' Hok Hin') as (p' & arr' & Hp' & Ha' & _ & Hidx').
    assert (p' = p) as -> by congruence.
    assert (arr' = arr) as -> by congruence.
    rewrite (get_live h g p arr) by (done || lia).
    rewrite list_lookup_insert_ne; [done|].
    subst i. intros Heq. apply Hne.
    destruct (index_injective g row col row' col' Hin Hin') as [-> ->];
      [lia | done].
  - intros q Hq. rewrite lookup_insert_ne; [done|]. congruence.
Qed.

End MoreGrid.

Lemma grid_set_then_get_witness :
  exists h',
    Grid.set Grid.sample_heap Grid.sample_grid 1 0 99 = Ok h'
    /\ Grid.rep_ok h' Grid.sample_grid
    /\ Grid.get h' Grid.sample_grid 1 0 = Ok 99
    /\ Grid.row_read h' (Grid.subscript Grid.sample_grid 1) 0 = Ok 99
    /\ (forall row' col',
          Grid.inBounds Grid.sample_grid row' col' = true ->
          (row', col') ≠ (1, 0) ->
          Grid.get h' Grid.sample_grid row' col'
          = Grid.get Grid.sample_heap Grid.sample_grid row' col')
    /\ (forall q, Grid.elements Grid.sample_grid ≠ Some q ->
                  h' !! q = Grid.sample_heap !! q).
Proof.
  apply (grid_set_then_get Grid.sample_heap Grid.sample_grid 1 0 99).
  - unfold Grid.rep_ok. simpl. unfold INT_MAX. repeat split; try lia.
    exists [10; 11; 12; 13; 14; 15]. split; reflexivity.
  - reflexivity.
Defined.

Lemma sample_grid_ok : Grid.rep_ok Grid.sample_heap Grid.sample_grid.
Proof.
  unfold Grid.rep_ok. simpl. unfold INT_MAX. repeat split; try lia.
  exists [10; 11; 12; 13; 14; 15]. split; reflexivity.
Qed.

Section GridFill.

Import Grid.

Context {ValueType : Type}.
Variable d : ValueType.

Implicit Types (h : gmap loc (list ValueType)) (g : rep) (v : ValueType)
  (arr : list ValueType).

(** After [k] rounds the filling loop has overwritten the first [k]
    elements. *)
Lemma fill_loop_prefix h (p : loc) arr v (k : nat) :
  h !! p = Some arr -> (k <= length arr)%nat ->
  for_loop k (fun i h' => store_at h' (Some p) i v) h
  = Ok (<[p := replicate k v ++ drop k arr]> h).
Proof.
  intros Hp. induction k as [|k IH]; intros Hk.
  - simpl. by rewrite insert_id.
  - rewrite for_loop_S, IH, outcome_bind_Ok by lia.
    destruct (lookup_lt_is_Some_2 arr k) as [x Hx]; [lia|].
    rewrite (store_at_in_range _ p (replicate k v ++ drop k arr)).
    + rewrite insert_insert_eq, Nat2Z.id. do 2 f_equal.
      rewrite insert_app_r_alt by (rewrite length_replicate; lia).
      rewrite length_replicate, Nat.sub_diag.
      rewrite (drop_S arr x k Hx). simpl.
      generalize (drop (S k) arr). intros l. clear IH Hk Hx.
      induction k as [|k IHk]; simpl; [done|]. by rewrite IHk.
    + apply lookup_insert_eq.
    + rewrite length_app, length_replicate, length_drop. lia.
Qed.

Lemma fill_loop_all h (p : loc) arr v :
  h !! p = Some arr ->
  for_loop (length arr) (fun i h' => store_at h' (Some p) i v) h
  = Ok (<[p := replicate (length arr) v]> h).
Proof.
  intros Hp. rewrite (fill_loop_prefix h p arr v (length arr)) by done.
  by rewrite drop_all, app_nil_r.
Qed.

Lemma get_replicate h g (p : loc) v (row col : Z) :
  0 <= nCols g -> elements g = Some p ->
  h !! p = Some (replicate (Z.to_nat (nRows g * nCols g)) v) ->
  inBounds g row col = true -> get h g row col = Ok v.
Proof.
  intros Hc Hp Ha Hin.
  pose proof (index_in_range g row col Hc Hin) as Hidx.
  rewrite (get_live h g p _ row col Hp Ha Hin) by lia.
  rewrite lookup_replicate_2 by lia. done.
Qed.

(** X8. On a grid that satisfies its invariant [fill] returns and keeps
    the invariant; afterwards every position inside the bounds reads as
    the fill value, and no other array of the heap has changed. *)
Theorem grid_fill_all h g v :
  rep_ok h g ->
  exists h',
    fill h g v = Ok h'
    /\ rep_ok h' g
    /\ (forall row col, inBounds g row col = true -> get h' g row col = Ok v)
    /\ (forall q, elements g ≠ Some q -> h' !! q = h !! q).
Proof.
  intros Hok. pose proof Hok as (Hr & Hc & Hmax & Harr).
  unfold fill. rewrite int_mul_fits, outcome_bind_Ok by lia.
  destruct (elements g) as [p|] eqn:Hp.
  - destruct Harr as (arr & Ha & Hlen).
    rewrite <- Hlen, Nat2Z.id, (fill_loop_all h p arr v Ha).
    eexists. split; [done|]. split; [|split].
    + repeat split; try done. rewrite Hp. eexists.
      split; [apply lookup_insert_eq|]. by rewrite length_replicate.
    + intros row col Hin. apply (get_replicate _ g p); try done.
      rewrite lookup_insert_eq. do 2 f_equal. lia.
    + intros q Hq. rewrite lookup_insert_ne; [done|]. congruence.
  - rewrite Harr. simpl. exists h. split; [done|]. split; [|split].
    + repeat split; try done. by rewrite Hp.
    + intros row col Hin. apply inBounds_spec in Hin.
      unfold numRows, numCols in Hin. nia.
    + done.
Qed.

(** The loops of the library never end in [error] unless their body
    does. *)
Lemma for_loop_not_fatal {S : Type} (n : nat) (body : Z -> S -> outcome S)
    (s : S) (msg : string) :
  (forall i s' msg', body i s' ≠ Fatal msg') ->
  for_loop n body s ≠ Fatal msg.
Proof.
  intros Hbody. induction n as [|n IH]; [done|].
  rewrite for_loop_S. destruct (for_loop n body s) as [s'| |]; simpl;
    [apply Hbody | done | done].
Qed.

Lemma outcome_bind_not_fatal {A B : Type} (m : outcome A)
    (f : A -> outcome B) (msg : string) :
  (forall msg', m ≠ Fatal msg') -> (forall a msg', f a ≠ Fatal msg') ->
  m ≫= f ≠ Fatal msg.
Proof.
  intros Hm Hf. destruct m as [a|msg'|]; simpl; [apply Hf | | done].
  by destruct (Hm msg').
Qed.

Lemma delete_array_not_fatal h (p : option loc) (msg : string) :
  delete_array h p ≠ Fatal msg.
Proof. unfold delete_array. repeat case_match; discriminate. Qed.

(** With dimensions that are not negative [resize] does not end in
    [error]. *)
Lemma resize_not_fatal h g (r c : Z) (retain : bool) (msg : string) :
  0 <= r -> 0 <= c -> resize d h g r c retain ≠ Fatal msg.
Proof.
  intros Hr Hc. unfold resize.
  destruct (Z.ltb_spec r 0); [lia|]. destruct (Z.ltb_spec c 0); [lia|].
  simpl orb. cbv iota.
  apply outcome_bind_not_fatal.
  { intros msg'. unfold int_mul. by case_match. }
  intros n msg'. unfold new_array. cbv beta iota zeta.
  apply outcome_bind_not_fatal.
  { intros msg''. apply for_loop_not_fatal.
    intros i s' m. apply store_at_not_fatal. }
  intros h1 msg''. apply outcome_bind_not_fatal.
  { intros m. destruct retain; [|done].
    apply for_loop_not_fatal. intros i s' m'.
    apply for_loop_not_fatal. intros j s'' m''.
    apply outcome_bind_not_fatal.
    - intros m3. apply load_not_fatal.
    - intros a m3. apply store_at_not_fatal. }
  intros h2 m. apply outcome_bind_not_fatal; [|done].
  intros m'. destruct (elements g); [apply delete_array_not_fatal | done].
Qed.

(** What [resize] leaves when the old contents are discarded. *)
Lemma resize_discard_result h g (r c : Z) :
  0 <= r -> 0 <= c -> r * c <= INT_MAX ->
  (forall q, elements g = Some q -> is_Some (h !! q)) ->
  resize d h g r c false
  = Ok (match elements g with
        | Some q =>
            delete q (<[fresh (dom h) := replicate (Z.to_nat (r * c)) d]> h)
        | None => <[fresh (dom h) := replicate (Z.to_nat (r * c)) d]> h
        end,
        mkRep (Some (fresh (dom h))) r c).
Proof.
  intros Hr Hc Hmax Hlive. unfold resize.
  destruct (Z.ltb_spec r 0); [lia|]. destruct (Z.ltb_spec c 0); [lia|].
  simpl orb. cbv iota.
  rewrite int_mul_fits, outcome_bind_Ok by nia.
  unfold new_array. cbv beta iota zeta.
  set (p := fresh (dom h)). set (n := Z.to_nat (r * c)).
  pose proof (fill_loop_all (<[p := replicate n d]> h) p (replicate n d) d
                (lookup_insert_eq _ _ _)) as Hfill.
  rewrite length_replicate, insert_insert_eq in Hfill.
  rewrite Hfill, !outcome_bind_Ok.
  destruct (elements g) as [q|] eqn:Hq; [|done].
  unfold delete_array.
  rewrite bool_decide_true; [done|].
  destruct (Hlive q eq_refl) as [arr Hq'].
  rewrite lookup_insert_ne; [by eexists|].
  intros Heq. apply (is_fresh (dom h)). fold p. rewrite Heq.
  apply elem_of_dom. by eexists.
Qed.

(** X9. [resize] ends in [error] exactly when a requested dimension is
    negative.  Asked to discard the old contents and given a size that
    fits an [int], it returns a grid of the requested dimensions that
    satisfies the invariant and reads as the default value everywhere;
    the old array is freed and no other array of the heap changes. *)
Theorem grid_resize_discard h g (r c : Z) (retain : bool) :
  ((exists msg, resize d h g r c retain = Fatal msg) <-> r < 0 \/ c < 0)
  /\ (0 <= r -> 0 <= c -> r * c <= INT_MAX ->
      (forall q, elements g = Some q -> is_Some (h !! q)) ->
      exists h' g',
        resize d h g r c false = Ok (h', g')
        /\ nRows g' = r /\ nCols g' = c
        /\ rep_ok h' g'
        /\ (forall row col,
              inBounds g' row col = true -> get h' g' row col = Ok d)
        /\ (forall q, elements g = Some q -> h' !! q = None)
        /\ (forall q, elements g ≠ Some q -> elements g' ≠ Some q ->
                      h' !! q = h !! q)).
Proof.
  split.
  - split.
    + intros [msg H]. destruct (Z.ltb_spec r 0); [lia|].
      destruct (Z.ltb_spec c 0); [lia|]. exfalso. revert H.
      by apply resize_not_fatal.
    + intros Hneg. unfold resize.
      assert ((r <? 0) || (c <? 0) = true) as ->; [|by eexists].
      apply orb_true_iff. rewrite !Z.ltb_lt. done.
  - intros Hr Hc Hmax Hlive.
    rewrite (resize_discard_result h g r c Hr Hc Hmax Hlive).
    set (p := fresh (dom h)). set (n := Z.to_nat (r * c)).
    assert (Hfresh : h !! p = None).
    { apply not_elem_of_dom. apply is_fresh. }
    assert (Hpq : forall q, elements g = Some q -> p ≠ q).
    { intros q Hq Heq. destruct (Hlive q Hq) as [arr Harr].
      rewrite <- Heq, Hfresh in Harr. done. }
    eexists _, _. split; [done|]. simpl.
    split; [done|]. split; [done|].
    assert (Hp : match elements g with
                 | Some q => delete q (<[p := replicate n d]> h)
                 | None => <[p := replicate n d]> h
                 end !! p = Some (replicate n d)).
    { destruct (elements g) as [q|] eqn:Hq.
      - rewrite lookup_delete_ne by (intros ->; by apply (Hpq p)).
        apply lookup_insert_eq.
      - apply lookup_insert_eq. }
    split; [|split; [|split]].
    + repeat split; try done. simpl. eexists. split; [exact Hp|].
      rewrite length_replicate. subst n. nia.
    + intros row col Hin.
      apply (get_replicate _ (mkRep (Some p) r c) p); try done.
    + intros q Hq. rewrite Hq. apply lookup_delete_eq.
    + intros q Hq Hq'. destruct (elements g) as [q0|].
      * rewrite lookup_delete_ne by congruence.
        rewrite lookup_insert_ne; [done|]. congruence.
      * rewrite lookup_insert_ne; [done|]. congruence.
Qed.

(** X10. [Grid(nRows, nCols)] with dimensions that are not negative and
    fit an [int] gives, whatever the uninitialised size fields held, a
    grid of that size that satisfies the invariant and holds the default
    value everywhere; destroying it again leaves the heap as it was
    before the construction. *)
Theorem grid_construct_destroy h (junkRows junkCols r c : Z) :
  0 <= r -> 0 <= c -> r * c <= INT_MAX ->
  exists h' g',
    construct d h junkRows junkCols r c = Ok (h', g')
    /\ nRows g' = r /\ nCols g' = c
    /\ rep_ok h' g'
    /\ (forall row col,
          inBounds g' row col = true -> get h' g' row col = Ok d)
    /\ (forall q, elements g' ≠ Some q -> h' !! q = h !! q)
    /\ destroy h' g' = Ok h.
Proof.
  intros Hr Hc Hmax. unfold construct.
  rewrite (resize_discard_result h _ r c Hr Hc Hmax) by done. simpl.
  set (p := fresh (dom h)). set (n := Z.to_nat (r * c)).
  assert (Hfresh : h !! p = None).
  { apply not_elem_of_dom. apply is_fresh. }
  eexists _, _. split; [done|]. simpl. split; [done|]. split; [done|].
  split; [|split; [|split]].
  - repeat split; try done. simpl. eexists.
    split; [apply lookup_insert_eq|]. rewrite length_replicate. subst n. nia.
  - intros row col Hin.
    apply (get_replicate _ (mkRep (Some p) r c) p); try done.
    apply lookup_insert_eq.
  - intros q Hq. rewrite lookup_insert_ne; [done|]. congruence.
  - unfold destroy, delete_array. simpl.
    rewrite bool_decide_true by (rewrite lookup_insert_eq; by eexists).
    by rewrite delete_insert_id.
Qed.

End GridFill.

Lemma grid_fill_all_witness :
  exists h',
    Grid.fill Grid.sample_heap Grid.sample_grid 7 = Ok h'
    /\ Grid.rep_ok h' Grid.sample_grid
    /\ (forall row col,
          Grid.inBounds Grid.sample_grid row col = true ->
          Grid.get h' Grid.sample_grid row col = Ok 7)
    /\ (forall q, Grid.elements Grid.sample_grid ≠ Some q ->
                  h' !! q = Grid.sample_heap !! q).
Proof.
  apply (grid_fill_all Grid.sample_heap Grid.sample_grid 7).
  exact sample_grid_ok.
Defined.

Lemma grid_resize_discard_witness :
  exists h' g',
    Grid.resize 0 Grid.sample_heap Grid.sample_grid 3 2 false = Ok (h', g')
    /\ Grid.nRows g' = 3 /\ Grid.nCols g' = 2
    /\ Grid.rep_ok h' g'
    /\ (forall row col,
          Grid.inBounds g' row col = true -> Grid.get h' g' row col = Ok 0)
    /\ (forall q, Grid.elements Grid.sample_grid = Some q -> h' !! q = None)
    /\ (forall q, Grid.elements Grid.sample_grid ≠ Some q ->
                  Grid.elements g' ≠ Some q ->
                  h' !! q = Grid.sample_heap !! q).
Proof.
  destruct (grid_resize_discard 0 Grid.sample_heap Grid.sample_grid 3 2 false)
    as [_ H].
  apply H.
  - lia.
  - lia.
  - unfold INT_MAX. lia.
  - intros q [= <-]. by eexists.
Defined.

Lemma grid_construct_destroy_witness :
  exists h' g',
    Grid.construct 0 Grid.sample_heap 123 (-5) 3 2 = Ok (h', g')
    /\ Grid.nRows g' = 3 /\ Grid.nCols g' = 2
    /\ Grid.rep_ok h' g'
    /\ (forall row col,
          Grid.inBounds g' row col = true -> Grid.get h' g' row col = Ok 0)
    /\ (forall q, Grid.elements g' ≠ Some q -> h' !! q = Grid.sample_heap !! q)
    /\ Grid.destroy h' g' = Ok Grid.sample_heap.
Proof.
  apply (grid_construct_destroy 0 Grid.sample_heap 123 (-5) 3 2).
  - lia.
  - lia.
  - unfold INT_MAX. lia.
Defined.

Section GridRetain.

Import Grid.

Context {ValueType : Type}.
Variable d : ValueType.

Implicit Types (h : gmap loc (list ValueType)) (g : rep) (v : ValueType)
  (arr narr : list ValueType).

Local Ltac compare_cases :=
  repeat match goal with
         | |- context [Z.ltb ?a ?b] => destruct (Z.ltb_spec a b)
         | |- context [Z.eqb ?a ?b] => destruct (Z.eqb_spec a b)
         | H : context [Z.ltb ?a ?b] |- _ => destruct (Z.ltb_spec a b)
         | H : context [Z.eqb ?a ?b] |- _ => destruct (Z.eqb_spec a b)
         end; simpl in *; try lia; try done.

(** The new array while the retaining loops run: the cells copied so
    far, rows below [k] and the first [j] cells of row [k], hold what
    the loop read for them; the others hold the default value. *)
Local Abbreviation copied_so_far arr R r c minC k j narr :=
  (forall row col : Z,
      0 <= row < r -> 0 <= col < c ->
      narr !! Z.to_nat (row * c + col)
      = if (col <? minC) && ((row <? k) || ((row =? k) && (col <? j)))
        then arr !! Z.to_nat (row * R + col)
        else Some d).

Lemma retain_row h (p q : loc) arr (R r c minC k : Z) (j : nat) narr :
  h !! q = Some arr -> p ≠ q ->
  0 <= R -> 0 <= k < r -> Z.of_nat j <= minC <= c ->
  (forall col, 0 <= col < Z.of_nat j ->
               k * R + col < Z.of_nat (length arr)) ->
  Z.of_nat (length narr) = r * c ->
  copied_so_far arr R r c minC k 0 narr ->
  exists narr',
    for_loop j (fun col h' =>
                  v ← load h' (Some q) (k * R + col);
                  store_at h' (Some p) (k * c + col) v) (<[p := narr]> h)
    = Ok (<[p := narr']> h)
    /\ length narr' = length narr
    /\ copied_so_far arr R r c minC k (Z.of_nat j) narr'.
Proof.
  intros Hq Hpq HR Hk. induction j as [|j IH]; intros Hj Hreads Hlen Hinv.
  - exists narr. by repeat split.
  - destruct IH as (narr1 & Hloop & Hlen1 & Hinv1); [lia | | done | done|].
    { intros col Hcol. apply Hreads. lia. }
    rewrite for_loop_S, Hloop, outcome_bind_Ok.
    assert (Hread : exists x, arr !! Z.to_nat (k * R + Z.of_nat j) = Some x
                              /\ load (<[p := narr1]> h) (Some q)
                                   (k * R + Z.of_nat j) = Ok x).
    { apply load_in_range; [by rewrite lookup_insert_ne|].
      split; [nia|]. apply Hreads. lia. }
    destruct Hread as (x & Hx & ->). rewrite outcome_bind_Ok.
    assert (Hdst : 0 <= k * c + Z.of_nat j < Z.of_nat (length narr1)) by nia.
    rewrite (store_at_in_range _ p narr1)
      by (done || apply lookup_insert_eq).
    rewrite insert_insert_eq.
    eexists. split; [done|]. split; [by rewrite length_insert|].
    intros row col Hrow Hcol.
    destruct (decide (row = k /\ col = Z.of_nat j)) as [[-> ->]|Hne].
    + rewrite list_lookup_insert_eq by lia. rewrite Hx. compare_cases.
    + assert (Hidx : row * c + col ≠ k * c + Z.of_nat j).
      { destruct (Z.lt_trichotomy row k) as [?|[?|?]]; nia. }
      assert (0 <= row * c + col) by nia.
      rewrite list_lookup_insert_ne by lia.
      rewrite Hinv1 by done. compare_cases.
Qed.

Lemma retain_rows h (p q : loc) arr (R r c minC : Z) (k : nat) :
  h !! q = Some arr -> p ≠ q ->
  0 <= R -> Z.of_nat k <= r -> 0 <= minC <= c -> 0 <= r * c ->
  (forall row col, 0 <= row < Z.of_nat k -> 0 <= col < minC ->
                   row * R + col < Z.of_nat (length arr)) ->
  exists narr',
    for_loop k (fun row h' =>
                  for_loop (Z.to_nat minC) (fun col h' =>
                    v ← load h' (Some q) (row * R + col);
                    store_at h' (Some p) (row * c + col) v) h')
      (<[p := replicate (Z.to_nat (r * c)) d]> h)
    = Ok (<[p := narr']> h)
    /\ Z.of_nat (length narr') = r * c
    /\ copied_so_far arr R r c minC (Z.of_nat k) 0 narr'.
Proof.
  intros Hq Hpq HR. induction k as [|k IH]; intros Hk HminC Hn Hreads.
  - eexists. split; [done|]. split; [rewrite length_replicate; lia|].
    intros row col Hrow Hcol. rewrite lookup_replicate_2 by nia.
    compare_cases.
  - destruct IH as (narr1 & Hloop & Hlen1 & Hinv1); [lia | done | done | |].
    { intros row col Hrow Hcol. apply Hreads; lia. }
    rewrite for_loop_S, Hloop, outcome_bind_Ok.
    destruct (retain_row h p q arr R r c minC (Z.of_nat k) (Z.to_nat minC)
                narr1 Hq Hpq HR) as (narr2 & Hloop2 & Hlen2 & Hinv2);
      try done; try lia.
    { intros col Hcol. apply Hreads; lia. }
    rewrite Hloop2. exists narr2. split; [done|]. split; [lia|].
    intros row col Hrow Hcol. rewrite Hinv2 by done.
    rewrite Z2Nat.id by lia. compare_cases.
Qed.

(** What [resize] leaves when the old contents are retained, provided
    the reads of the retaining loops stay inside the old array. *)
Lemma resize_retain_result h g (q : loc) arr (r c : Z) :
  elements g = Some q -> h !! q = Some arr ->
  0 <= nRows g -> 0 <= nCols g ->
  0 <= r -> 0 <= c -> r * c <= INT_MAX ->
  (forall row col,
      0 <= row < Z.min (nRows g) r -> 0 <= col < Z.min (nCols g) c ->
      row * nRows g + col < Z.of_nat (length arr)) ->
  exists narr,
    resize d h g r c true
    = Ok (delete q (<[fresh (dom h) := narr]> h),
          mkRep (Some (fresh (dom h))) r c)
    /\ Z.of_nat (length narr) = r * c
    /\ forall row col,
         0 <= row < r -> 0 <= col < c ->
         narr !! Z.to_nat (row * c + col)
         = if (row <? Z.min (nRows g) r) && (col <? Z.min (nCols g) c)
           then arr !! Z.to_nat (row * nRows g + col)
           else Some d.
Proof.
  intros Hq Ha HR HC Hr Hc Hmax Hreads. unfold resize.
  destruct (Z.ltb_spec r 0); [lia|]. destruct (Z.ltb_spec c 0); [lia|].
  simpl orb. cbv iota.
  rewrite int_mul_fits, outcome_bind_Ok by nia.
  unfold new_array. cbv beta iota zeta.
  set (p := fresh (dom h)). set (n := Z.to_nat (r * c)).
  assert (Hpq : p ≠ q).
  { intros Heq. apply (is_fresh (dom h)). fold p. rewrite Heq.
    apply elem_of_dom. by eexists. }
  pose proof (fill_loop_all (<[p := replicate n d]> h) p (replicate n d) d
                (lookup_insert_eq _ _ _)) as Hfill.
  rewrite length_replicate, insert_insert_eq in Hfill.
  rewrite Hfill, outcome_bind_Ok.
  replace (if nRows g <? r then nRows g else r) with (Z.min (nRows g) r)
    by (destruct (Z.ltb_spec (nRows g) r); lia).
  replace (if nCols g <? c then nCols g else c) with (Z.min (nCols g) c)
    by (destruct (Z.ltb_spec (nCols g) c); lia).
  rewrite Hq.
  destruct (retain_rows h p q arr (nRows g) r c (Z.min (nCols g) c)
              (Z.to_nat (Z.min (nRows g) r)) Ha Hpq HR)
    as (narr & Hloop & Hlen & Hinv); try lia; try nia.
  { intros row col Hrow Hcol. apply Hreads; lia. }
  subst n. rewrite Hloop, outcome_bind_Ok.
  unfold delete_array.
  rewrite bool_decide_true by (rewrite lookup_insert_ne by done; by eexists).
  rewrite outcome_bind_Ok.
  exists narr. split; [done|]. split; [done|].
  intros row col Hrow Hcol. rewrite Hinv by done.
  rewrite Z2Nat.id by lia. compare_cases.
Qed.

(** X11. Resizing a square grid with [retain] set, to dimensions that
    are not negative and fit an [int], returns a grid of the requested
    dimensions that satisfies the invariant; every position that lies
    inside both the old and the new bounds reads as it did before, and
    every other position of the new grid reads as the default value. *)
Theorem grid_resize_retain_square h g (r c : Z) :
  rep_ok h g -> nRows g = nCols g ->
  0 <= r -> 0 <= c -> r * c <= INT_MAX ->
  exists h' g',
    resize d h g r c true = Ok (h', g')
    /\ nRows g' = r /\ nCols g' = c
    /\ rep_ok h' g'
    /\ forall row col,
         inBounds g' row col = true ->
         get h' g' row col
         = if inBounds g row col then get h g row col else Ok d.
Proof.
  intros Hok Hsq Hr Hc Hmax. pose proof Hok as (HR & HC & HRC & Harr).
  destruct (elements g) as [q|] eqn:Hq.
  - destruct Harr as (arr & Ha & Hlen).
    destruct (resize_retain_result h g q arr r c Hq Ha HR HC Hr Hc Hmax)
      as (narr & -> & Hnlen & Hcells).
    { intros row col Hrow Hcol. nia. }
    set (p := fresh (dom h)) in *.
    assert (Hpq : p ≠ q).
    { intros Heq. apply (is_fresh (dom h)). fold p. rewrite Heq.
      apply elem_of_dom. by eexists. }
    assert (Hp : delete q (<[p := narr]> h) !! p = Some narr).
    { rewrite lookup_delete_ne by done. apply lookup_insert_eq. }
    eexists _, _. split; [done|]. simpl. split; [done|]. split; [done|].
    split.
    + repeat split; try done. simpl. by exists narr.
    + intros row col Hin. pose proof Hin as Hin'.
      apply inBounds_spec in Hin'. unfold numRows, numCols in Hin'.
      simpl in Hin'.
      rewrite (get_live _ (mkRep (Some p) r c) p narr row col eq_refl Hp Hin)
        by (simpl; nia).
      simpl. rewrite Hcells by lia.
      destruct (inBounds g row col) eqn:Hold.
      * pose proof Hold as Hold'. apply inBounds_spec in Hold'.
        unfold numRows, numCols in Hold'.
        rewrite (get_live h g q arr row col Hq Ha Hold) by nia.
        rewrite <- Hsq. compare_cases.
      * assert (Hout : ~ (row < nRows g /\ col < nCols g)).
        { intros [? ?].
          assert (inBounds g row col = true); [|congruence].
          apply inBounds_spec. unfold numRows, numCols. lia. }
        compare_cases.
  - assert (HR0 : nRows g = 0) by nia.
    pose proof (resize_discard_result d h g r c Hr Hc Hmax) as Hdis.
    rewrite Hq in Hdis.
    assert (Hsame : resize d h g r c true = resize d h g r c false).
    { unfold resize. rewrite HR0.
      destruct ((r <? 0) || (c <? 0)); [done|].
      destruct (int_mul r c) as [n| |]; [|done|done].
      rewrite !outcome_bind_Ok. unfold new_array. cbv beta iota zeta.
      destruct (for_loop _ _ _) as [h1| |]; [|done|done].
      rewrite !outcome_bind_Ok.
      replace (if 0 <? r then 0 else r) with 0
        by (destruct (Z.ltb_spec 0 r); lia).
      done. }
    rewrite Hsame, Hdis by (intros ? [=]).
    set (p := fresh (dom h)).
    eexists _, _. split; [done|]. simpl. split; [done|]. split; [done|].
    split.
    + repeat split; try done. simpl. eexists.
      split; [apply lookup_insert_eq|]. rewrite length_replicate. nia.
    + intros row col Hin.
      assert (inBounds g row col = false) as ->.
      { apply not_true_is_false. rewrite inBounds_spec.
        unfold numRows. lia. }
      apply (get_replicate _ (mkRep (Some p) r c) p); try done.
      apply lookup_insert_eq.
Qed.

End GridRetain.

Lemma grid_resize_retain_square_witness :
  exists h' g',
    Grid.resize 0 {[ 7%nat := [1; 2; 3; 4] ]} (Grid.mkRep (Some 7%nat) 2 2)
      3 1 true = Ok (h', g')
    /\ Grid.nRows g' = 3 /\ Grid.nCols g' = 1
    /\ Grid.rep_ok h' g'
    /\ forall row col,
         Grid.inBounds g' row col = true ->
         Grid.get h' g' row col
         = if Grid.inBounds (Grid.mkRep (Some 7%nat) 2 2) row col
           then Grid.get {[ 7%nat := [1; 2; 3; 4] ]}
                  (Grid.mkRep (Some 7%nat) 2 2) row col
           else Ok 0.
Proof.
  apply (grid_resize_retain_square 0 {[ 7%nat := [1; 2; 3; 4] ]}
           (Grid.mkRep (Some 7%nat) 2 2) 3 1).
  - unfold Grid.rep_ok. simpl. unfold INT_MAX. repeat split; try lia.
    exists [1; 2; 3; 4]. split; reflexivity.
  - reflexivity.
  - lia.
  - lia.
  - unfold INT_MAX. lia.
Defined.

Section GridTraverse.

Import Grid.

Context {ValueType : Type}.

Implicit Types (h : gmap loc (list ValueType)) (g : rep) (v : ValueType)
  (arr vs : list ValueType) (st : store (ValueType := ValueType)).

(** The elements of a grid that satisfies its invariant, as [get] sees
    them. *)
Lemma rep_ok_cells h g :
  rep_ok h g ->
  exists arr,
    Z.of_nat (length arr) = nRows g * nCols g
    /\ match elements g with
       | Some p => h !! p = Some arr
       | None => arr = []
       end
    /\ forall row col,
         inBounds g row col = true ->
         exists v, arr !! Z.to_nat (row * nCols g + col) = Some v
                   /\ get h g row col = Ok v.
Proof.
  intros (HR & HC & Hmax & Harr).
  destruct (elements g) as [p|] eqn:Hp.
  - destruct Harr as (arr & Ha & Hlen). exists arr.
    split; [done|]. split; [done|]. intros row col Hin.
    pose proof (index_in_range g row col HC Hin) as Hidx.
    destruct (lookup_lt_is_Some_2 arr (Z.to_nat (row * nCols g + col)))
      as [v Hv]; [lia|].
    exists v. split; [done|].
    rewrite (get_live h g p arr row col Hp Ha Hin) by lia. by rewrite Hv.
  - exists []. split; [simpl; lia|]. split; [done|]. intros row col Hin.
    pose proof (index_in_range g row col HC Hin). lia.
Qed.

Lemma mapAll_row h g arr (i : Z) (j : nat) vs :
  0 <= nCols g ->
  (forall row col,
      inBounds g row col = true ->
      exists v, arr !! Z.to_nat (row * nCols g + col) = Some v
                /\ get h g row col = Ok v) ->
  0 <= i < nRows g -> Z.of_nat j <= nCols g ->
  for_loop j (fun j acc => v ← get h g i j; Ok (acc ++ [v])) vs
  = Ok (vs ++ take j (drop (Z.to_nat (i * nCols g)) arr)).
Proof.
  intros HC Hcells Hi. induction j as [|j IH]; intros Hj.
  - simpl. by rewrite app_nil_r.
  - rewrite for_loop_S, IH, outcome_bind_Ok by lia.
    destruct (Hcells i (Z.of_nat j)) as (v & Hv & ->).
    { apply inBounds_spec. unfold numRows, numCols. lia. }
    rewrite outcome_bind_Ok.
    rewrite (take_S_r _ _ v), app_assoc; [done|].
    rewrite lookup_drop, <- Hv. f_equal. nia.
Qed.

Lemma mapAll_rows h g arr (k : nat) :
  0 <= nCols g ->
  (forall row col,
      inBounds g row col = true ->
      exists v, arr !! Z.to_nat (row * nCols g + col) = Some v
                /\ get h g row col = Ok v) ->
  Z.of_nat k <= nRows g ->
  for_loop k (fun i acc =>
                for_loop (Z.to_nat (nCols g))
                  (fun j acc => v ← get h g i j; Ok (acc ++ [v])) acc) []
  = Ok (take (k * Z.to_nat (nCols g)) arr).
Proof.
  intros HC Hcells. induction k as [|k IH]; intros Hk.
  - done.
  - rewrite for_loop_S, IH, outcome_bind_Ok by lia.
    rewrite (mapAll_row h g arr) by (done || lia).
    replace (Z.to_nat (Z.of_nat k * nCols g))
      with (k * Z.to_nat (nCols g))%nat by nia.
    rewrite take_take_drop. f_equal. f_equal. lia.
Qed.

Lemma mapAll_contents h g arr :
  rep_ok h g ->
  Z.of_nat (length arr) = nRows g * nCols g ->
  (forall row col,
      inBounds g row col = true ->
      exists v, arr !! Z.to_nat (row * nCols g + col) = Some v
                /\ get h g row col = Ok v) ->
  mapAll h g = Ok arr.
Proof.
  intros (HR & HC & _) Hlen Hcells. unfold mapAll.
  rewrite (mapAll_rows h g arr) by (done || lia).
  rewrite take_ge; [done|]. nia.
Qed.

(** X12. On a grid that satisfies its invariant [mapAll] returns, calls
    [fn] once for each of the [nRows * nCols] positions, and the call
    number [row * nCols + col] (counting from 0) is made with the value
    [get] returns for [row] and [col]: the grid is visited row by row,
    each row from its first column on. *)
Theorem grid_mapAll_row_major h g :
  rep_ok h g ->
  exists vs,
    mapAll h g = Ok vs
    /\ Z.of_nat (length vs) = nRows g * nCols g
    /\ forall row col,
         inBounds g row col = true ->
         get h g row col = of_option (vs !! Z.to_nat (row * nCols g + col)).
Proof.
  intros Hok. destruct (rep_ok_cells h g Hok) as (arr & Hlen & _ & Hcells).
  exists arr. split; [by apply mapAll_contents|]. split; [done|].
  intros row col Hin. destruct (Hcells row col Hin) as (v & -> & ->). done.
Qed.

Lemma grid_pass_loop_eq (fuel : nat) st (it end_ : grid_iterator) :
  grid_pass_loop fuel st it end_
  = if grid_iterator_eq it end_ then Some (Ok [])
    else match fuel with
         | O => None
         | S fuel' =>
             match grid_deref st it with
             | Ok v =>
                 (fun r => ws ← r; Ok (v :: ws))
                   <$> grid_pass_loop fuel' st (grid_incr it) end_
             | Fatal msg => Some (Fatal msg)
             | Undefined => Some Undefined
             end
         end.
Proof. by destruct fuel. Qed.

(** From index [i] on the loop yields the rest of the array. *)
Lemma grid_pass_loop_drop st (this : loc) g (q : loc) arr (k : nat) :
  objects st !! this = Some g -> elements g = Some q ->
  arrays st !! q = Some arr ->
  forall (i fuel : nat),
    (i + k = length arr)%nat -> (k <= fuel)%nat ->
    grid_pass_loop fuel st (mkGridIterator this (Z.of_nat i))
      (mkGridIterator this (Z.of_nat (length arr)))
    = Some (Ok (drop i arr)).
Proof.
  intros Hg Hq Ha. induction k as [|k IH]; intros i fuel Hik Hfuel.
  - rewrite grid_pass_loop_eq. unfold grid_iterator_eq. simpl.
    rewrite bool_decide_true by done.
    destruct (Z.eqb_spec (Z.of_nat i) (Z.of_nat (length arr))); [|lia].
    simpl. by rewrite drop_ge by lia.
  - rewrite grid_pass_loop_eq. unfold grid_iterator_eq. simpl.
    rewrite bool_decide_true by done.
    destruct (Z.eqb_spec (Z.of_nat i) (Z.of_nat (length arr))); [lia|].
    simpl. destruct fuel as [|fuel]; [lia|].
    destruct (lookup_lt_is_Some_2 arr i) as [x Hx]; [lia|].
    unfold grid_deref. simpl. rewrite Hg. unfold of_option at 1.
    rewrite outcome_bind_Ok, Hq.
    destruct (load_in_range (arrays st) q arr (Z.of_nat i) Ha)
      as (x' & Hx' & ->); [lia|].
    rewrite Nat2Z.id in Hx'. assert (x' = x) as -> by congruence.
    unfold grid_incr. simpl.
    replace (Z.of_nat i + 1) with (Z.of_nat (S i)) by lia.
    rewrite IH by lia. simpl. by rewrite <- (drop_S _ _ _ Hx).
Qed.

(** X13. A range-based [for] over a grid that satisfies its invariant
    ends after [nRows * nCols] rounds, and its loop variable takes
    exactly the values [mapAll] hands to [fn], in the same order. *)
Theorem grid_iteration_is_mapAll st (this : loc) g (fuel : nat) :
  objects st !! this = Some g -> rep_ok (arrays st) g ->
  nRows g * nCols g <= Z.of_nat fuel ->
  exists vs,
    grid_pass fuel st this = Some (Ok vs)
    /\ mapAll (arrays st) g = Ok vs
    /\ Z.of_nat (length vs) = nRows g * nCols g.
Proof.
  intros Hg Hok Hfuel.
  destruct (rep_ok_cells _ g Hok) as (arr & Hlen & Harr & Hcells).
  exists arr. split; [|split; [by apply mapAll_contents|done]].
  destruct Hok as (HR & HC & Hmax & _).
  unfold grid_pass, grid_end. rewrite Hg. unfold of_option.
  rewrite outcome_bind_Ok.
  assert (int_mul (nRows g) (nCols g) = Ok (nRows g * nCols g)) as ->.
  { unfold int_mul. destruct (Z.leb_spec (- 2 ^ 31) (nRows g * nCols g));
      [|nia]. by destruct (Z.leb_spec (nRows g * nCols g) INT_MAX); [|lia]. }
  rewrite outcome_bind_Ok. unfold grid_begin.
  destruct (elements g) as [q|] eqn:Hq.
  - rewrite <- Hlen.
    apply (grid_pass_loop_drop st this g q arr (length arr) Hg Hq Harr
             0%nat fuel); lia.
  - subst arr. simpl in Hlen. rewrite <- Hlen.
    rewrite grid_pass_loop_eq. unfold grid_iterator_eq. simpl.
    by rewrite bool_decide_true.
Qed.

(** X14. The iterator's [operator*] makes no bounds check: on a grid
    that satisfies its invariant it returns the element at its index
    when the index lies inside the array, and at every other index, the
    one of [end()] included, it reads outside the array, which is
    undefined behaviour and not a call of [error]. *)
Theorem grid_iterator_deref_unchecked st (this : loc) g (i : Z) :
  objects st !! this = Some g -> rep_ok (arrays st) g ->
  (0 <= i < nRows g * nCols g ->
   exists v, grid_deref st (mkGridIterator this i) = Ok v
             /\ get (arrays st) g (i / nCols g) (i mod nCols g) = Ok v)
  /\ (~ 0 <= i < nRows g * nCols g ->
      grid_deref st (mkGridIterator this i) = Undefined)
  /\ (exists e, grid_end st this = Ok e /\ grid_deref st e = Undefined).
Proof.
  intros Hg Hok. pose proof Hok as (HR & HC & Hmax & Harr).
  assert (Hout : forall k, ~ 0 <= k < nRows g * nCols g ->
                           grid_deref st (mkGridIterator this k) = Undefined).
  { intros k Hk. unfold grid_deref. simpl. rewrite Hg. unfold of_option at 1.
    rewrite outcome_bind_Ok. unfold load.
    destruct (elements g) as [q|]; [|done].
    destruct Harr as (arr & -> & Hlen).
    destruct (Z.leb_spec 0 k); [|done].
    by rewrite lookup_ge_None_2 by lia. }
  split; [|split; [apply Hout|]].
  - intros Hi. unfold grid_deref. simpl. rewrite Hg. unfold of_option at 1.
    rewrite outcome_bind_Ok.
    assert (0 < nCols g) by nia.
    assert (Hin : inBounds g (i / nCols g) (i mod nCols g) = true).
    { apply inBounds_spec. unfold numRows, numCols.
      pose proof (Z.mod_pos_bound i (nCols g)).
      pose proof (Z.div_pos i (nCols g)).
      assert (i / nCols g < nRows g); [|lia].
      apply Z.div_lt_upper_bound; lia. }
    unfold get. rewrite Hin. simpl.
    replace (i / nCols g * nCols g + i mod nCols g) with i
      by (rewrite (Z.div_mod i (nCols g)) at 1; lia).
    destruct (elements g) as [q|]; [|lia].
    destruct Harr as (arr & Ha & Hlen).
    destruct (load_in_range (arrays st) q arr i Ha) as (v & _ & Hv); [lia|].
    exists v. by rewrite Hv.
  - unfold grid_end. rewrite Hg. unfold of_option.
    rewrite outcome_bind_Ok.
    assert (int_mul (nRows g) (nCols g) = Ok (nRows g * nCols g)) as ->.
    { unfold int_mul. destruct (Z.leb_spec (- 2 ^ 31) (nRows g * nCols g));
        [|nia]. by destruct (Z.leb_spec (nRows g * nCols g) INT_MAX); [|lia]. }
    rewrite outcome_bind_Ok. eexists. split; [done|]. apply Hout. lia.
Qed.

End GridTraverse.

Lemma grid_mapAll_row_major_witness :
  exists vs,
    Grid.mapAll Grid.sample_heap Grid.sample_grid = Ok vs
    /\ Z.of_nat (length vs) = Grid.nRows Grid.sample_grid * Grid.nCols Grid.sample_grid
    /\ forall row col,
         Grid.inBounds Grid.sample_grid row col = true ->
         Grid.get Grid.sample_heap Grid.sample_grid row col
         = of_option (vs !! Z.to_nat (row * Grid.nCols Grid.sample_grid + col)).
Proof.
  apply (grid_mapAll_row_major Grid.sample_heap Grid.sample_grid).
  exact sample_grid_ok.
Defined.

Lemma grid_iteration_is_mapAll_witness :
  exists vs,
    Grid.grid_pass 6 Grid.sample_store 1%nat = Some (Ok vs)
    /\ Grid.mapAll (Grid.arrays Grid.sample_store) Grid.sample_grid = Ok vs
    /\ Z.of_nat (length vs)
       = Grid.nRows Grid.sample_grid * Grid.nCols Grid.sample_grid.
Proof.
  apply (grid_iteration_is_mapAll Grid.sample_store 1%nat Grid.sample_grid 6).
  - reflexivity.
  - exact sample_grid_ok.
  - simpl. lia.
Defined.

Lemma grid_iterator_deref_unchecked_witness :
  (0 <= 4 < Grid.nRows Grid.sample_grid * Grid.nCols Grid.sample_grid ->
   exists v,
     Grid.grid_deref Grid.sample_store (Grid.mkGridIterator 1%nat 4) = Ok v
     /\ Grid.get (Grid.arrays Grid.sample_store) Grid.sample_grid
          (4 / Grid.nCols Grid.sample_grid) (4 mod Grid.nCols Grid.sample_grid)
        = Ok v)
  /\ (~ 0 <= 4 < Grid.nRows Grid.sample_grid * Grid.nCols Grid.sample_grid ->
      Grid.grid_deref Grid.sample_store (Grid.mkGridIterator 1%nat 4)
      = Undefined)
  /\ (exists e, Grid.grid_end Grid.sample_store 1%nat = Ok e
                /\ Grid.grid_deref Grid.sample_store e = Undefined).
Proof.
  apply (grid_iterator_deref_unchecked Grid.sample_store 1%nat
           Grid.sample_grid 4).
  - reflexivity.
  - exact sample_grid_ok.
Defined.

(** A loop whose body either goes on or returns [x] returns [x] when
    some round does, and runs to its end otherwise. *)
Lemma for_return_cases {R : Type} (n : nat) (start : Z)
    (body : Z -> outcome (option R)) (x : R) :
  (forall i, start <= i < start + Z.of_nat n ->
             body i = Ok None \/ body i = Ok (Some x)) ->
  (for_return n start body = Ok None
   /\ forall i, start <= i < start + Z.of_nat n -> body i = Ok None)
  \/ (for_return n start body = Ok (Some x)
      /\ exists i, start <= i < start + Z.of_nat n /\ body i = Ok (Some x)).
Proof.
  revert start. induction n as [|n IH]; intros start Hbody.
  - left. split; [done|]. lia.
  - cbn [for_return]. destruct (Hbody start) as [H0|H0]; [lia| |].
    + rewrite H0, outcome_bind_Ok.
      destruct (IH (start + 1)) as [[Hr Hall]|[Hr (i & Hi & Hsome)]].
      { intros i Hi. apply Hbody. lia. }
      * left. split; [done|]. intros i Hi.
        destruct (decide (i = start)) as [->|]; [done|]. apply Hall. lia.
      * right. split; [done|]. exists i. split; [lia|done].
    + rewrite H0, outcome_bind_Ok. right. split; [done|].
      exists start. split; [lia|done].
Qed.

Section GridEquals.

Import Grid.

Context {ValueType : Type}.
Variable d : ValueType.
Variable value_ne : ValueType -> ValueType -> bool.

Implicit Types (h : gmap loc (list ValueType)) (g : rep) (v : ValueType)
  (arr vs : list ValueType) (st : store (ValueType := ValueType)).

Lemma equals_scan h g g2 :
  rep_ok h g -> rep_ok h g2 ->
  nRows g = nRows g2 -> nCols g = nCols g2 ->
  exists b,
    (r ← for_return (Z.to_nat (nRows g)) 0 (fun row =>
            for_return (Z.to_nat (nCols g)) 0 (fun col =>
              x ← get h g row col;
              y ← get h g2 row col;
              Ok (if value_ne x y then Some false else None)));
     Ok (default true r)) = Ok b
    /\ (b = true <->
        forall row col,
          inBounds g row col = true ->
          exists x y, get h g row col = Ok x /\ get h g2 row col = Ok y
                      /\ value_ne x y = false).
Proof.
  intros Hok Hok2 HR HC.
  destruct (rep_ok_cells h g Hok) as (arr & _ & _ & Hcells).
  destruct (rep_ok_cells h g2 Hok2) as (arr2 & _ & _ & Hcells2).
  destruct Hok as (HR0 & HC0 & _).
  assert (Hin2 : forall row col, inBounds g row col = true ->
                                 inBounds g2 row col = true).
  { intros row col. unfold inBounds. by rewrite HR, HC. }
  set (cell := fun row col : Z =>
                 x ← get h g row col;
                 y ← get h g2 row col;
                 Ok (if value_ne x y then Some false else None)).
  change (exists b,
             (r ← for_return (Z.to_nat (nRows g)) 0 (fun row =>
                    for_return (Z.to_nat (nCols g)) 0 (cell row));
              Ok (default true r)) = Ok b
             /\ (b = true <->
                 forall row col,
                   inBounds g row col = true ->
                   exists x y, get h g row col = Ok x /\ get h g2 row col = Ok y
                               /\ value_ne x y = false)).
  assert (Hcell : forall row col,
             inBounds g row col = true ->
             exists x y, get h g row col = Ok x /\ get h g2 row col = Ok y
                         /\ cell row col
                            = Ok (if value_ne x y then Some false else None)).
  { intros row col Hin.
    destruct (Hcells row col Hin) as (x & _ & Hx).
    destruct (Hcells2 row col (Hin2 row col Hin)) as (y & _ & Hy).
    exists x, y. split; [done|]. split; [done|].
    unfold cell. by rewrite Hx, Hy, !outcome_bind_Ok. }
  assert (Hrow : forall row,
             0 <= row < nRows g ->
             (for_return (Z.to_nat (nCols g)) 0 (cell row) = Ok None
              /\ forall col, 0 <= col < nCols g -> cell row col = Ok None)
             \/ (for_return (Z.to_nat (nCols g)) 0 (cell row) = Ok (Some false)
                 /\ exists col, 0 <= col < nCols g
                                /\ cell row col = Ok (Some false))).
  { intros row Hrow.
    destruct (for_return_cases (Z.to_nat (nCols g)) 0 (cell row) false)
      as [[Hr Hall]|[Hr (col & Hcol & Hsome)]].
    - intros col Hcol.
      destruct (Hcell row col) as (x & y & _ & _ & ->).
      { apply inBounds_spec. unfold numRows, numCols. lia. }
      destruct (value_ne x y); auto.
    - left. split; [done|]. intros col Hcol. apply Hall. lia.
    - right. split; [done|]. exists col. split; [lia|done]. }
  destruct (for_return_cases (Z.to_nat (nRows g)) 0
              (fun row => for_return (Z.to_nat (nCols g)) 0 (cell row)) false)
    as [[Hr Hall]|[Hr (row & Hrow' & Hsome)]].
  - intros row Hrow'. destruct (Hrow row) as [[-> _]|[-> _]]; [lia|auto..].
  - rewrite Hr, outcome_bind_Ok. exists true. split; [done|].
    split; [|done]. intros _ row col Hin.
    pose proof Hin as Hin'. apply inBounds_spec in Hin'.
    unfold numRows, numCols in Hin'.
    destruct (Hcell row col Hin) as (x & y & Hx & Hy & Hxy).
    exists x, y. split; [done|]. split; [done|].
    destruct (Hrow row) as [[_ Hnone]|[Hsome _]]; [lia| |].
    + rewrite Hnone in Hxy by lia. by destruct (value_ne x y).
    + rewrite Hall in Hsome by lia. done.
  - rewrite Hr, outcome_bind_Ok. exists false. split; [done|].
    split; [done|]. intros Hall. exfalso.
    destruct (Hrow row) as [[Hnone _]|[_ (col & Hcol & Hc)]]; [lia| |].
    + rewrite Hnone in Hsome. done.
    + destruct (Hall row col) as (x & y & Hx & Hy & Hxy).
      { apply inBounds_spec. unfold numRows, numCols. lia. }
      unfold cell in Hc. rewrite Hx, Hy, !outcome_bind_Ok, Hxy in Hc. done.
Qed.

Lemma equals_result st (this grid2 : loc) g g2 :
  objects st !! this = Some g -> objects st !! grid2 = Some g2 ->
  rep_ok (arrays st) g -> rep_ok (arrays st) g2 ->
  exists b,
    equals value_ne st this grid2 = Ok b
    /\ (b = true <->
        this = grid2
        \/ (nRows g = nRows g2 /\ nCols g = nCols g2
            /\ forall row col,
                 inBounds g row col = true ->
                 exists x y,
                   get (arrays st) g row col = Ok x
                   /\ get (arrays st) g2 row col = Ok y
                   /\ value_ne x y = false)).
Proof.
  intros Hg Hg2 Hok Hok2. unfold equals.
  case_bool_decide as Hsame.
  { exists true. split; [done|]. split; auto. }
  rewrite Hg, Hg2. unfold of_option. rewrite !outcome_bind_Ok.
  case_bool_decide as HR.
  { simpl. exists false. split; [done|]. split; [done|].
    intros [?|(? & _)]; done. }
  case_bool_decide as HC.
  { simpl. exists false. split; [done|]. split; [done|].
    intros [?|(_ & ? & _)]; done. }
  simpl.
  destruct (equals_scan (arrays st) g g2 Hok Hok2 HR HC) as (b & -> & Hb).
  exists b. split; [done|]. rewrite Hb. split.
  - intros H. right. done.
  - intros [?|(_ & _ & H)]; done.
Qed.


(** X15. [equals] on two grids that satisfy the invariant returns, and
    it returns [true] exactly when the two are the same object, or have
    the same number of rows and of columns and at no position inside
    the bounds elements for which the element type's [!=] holds;
    [operator==] returns the same and [operator!=] the opposite. *)
Theorem grid_equals_spec st (this grid2 : loc) g g2 :
  objects st !! this = Some g -> objects st !! grid2 = Some g2 ->
  rep_ok (arrays st) g -> rep_ok (arrays st) g2 ->
  exists b,
    equals value_ne st this grid2 = Ok b
    /\ grid_eq value_ne st this grid2 = Ok b
    /\ grid_ne value_ne st this grid2 = Ok (negb b)
    /\ (b = true <->
        this = grid2
        \/ (nRows g = nRows g2 /\ nCols g = nCols g2
            /\ forall row col,
                 inBounds g row col = true ->
                 exists x y,
                   get (arrays st) g row col = Ok x
                   /\ get (arrays st) g2 row col = Ok y
                   /\ value_ne x y = false)).
Proof.
  intros Hg Hg2 Hok Hok2.
  destruct (equals_result st this grid2 g g2 Hg Hg2 Hok Hok2) as (b & Hb & Hiff).
  exists b. split; [done|]. split; [done|]. split; [|done].
  unfold grid_ne. by rewrite Hb, outcome_bind_Ok.
Qed.

Hypothesis value_ne_irrefl : forall x, value_ne x x = false.

(** A grid whose fields [deepCopy] has just set compares equal to the
    source, whichever of the two [equals] is called on. *)
Lemma deepCopy_equal (objs : gmap loc rep) h1 s (this src : loc) arr :
  this ≠ src -> objs !! src = Some s -> rep_ok h1 s ->
  match elements s with
  | Some q => h1 !! q = Some arr
  | None => arr = []
  end ->
  Z.of_nat (length arr) = nRows s * nCols s ->
  let st' := mkStore (<[this := mkRep (Some (fresh (dom h1))) (nRows s) (nCols s)]> objs)
                     (<[fresh (dom h1) := arr]> h1) in
  equals value_ne st' this src = Ok true
  /\ equals value_ne st' src this = Ok true.
Proof.
  intros Hne Hsrc Hok Harr Hlen st'.
  set (p := fresh (dom h1)) in *.
  set (g' := mkRep (Some p) (nRows s) (nCols s)) in *.
  assert (Hfresh : h1 !! p = None).
  { apply not_elem_of_dom. apply is_fresh. }
  assert (Hthis : objects st' !! this = Some g').
  { simpl. apply lookup_insert_eq. }
  assert (Hsrc' : objects st' !! src = Some s).
  { simpl. by rewrite lookup_insert_ne. }
  pose proof Hok as (HR & HC & Hmax & Hs4).
  assert (Hok' : rep_ok (arrays st') g').
  { repeat split; try done. simpl. exists arr.
    split; [apply lookup_insert_eq|done]. }
  assert (Hoks : rep_ok (arrays st') s).
  { repeat split; try done. destruct (elements s) as [q|] eqn:Hq; [|done].
    exists arr. split; [|done]. simpl. rewrite lookup_insert_ne; [done|].
    intros <-. congruence. }
  assert (Hget : forall row col,
             inBounds s row col = true ->
             exists x, get (arrays st') g' row col = Ok x
                       /\ get (arrays st') s row col = Ok x).
  { intros row col Hin.
    pose proof (index_in_range s row col HC Hin) as Hidx.
    destruct (lookup_lt_is_Some_2 arr (Z.to_nat (row * nCols s + col)))
      as [x Hx]; [lia|].
    exists x. split.
    - rewrite (get_live _ g' p arr row col eq_refl) by
        (simpl; try apply lookup_insert_eq; done || lia).
      simpl. by rewrite Hx.
    - destruct (elements s) as [q|] eqn:Hq; [|lia].
      rewrite (get_live _ s q arr row col Hq) by
        (simpl; try (rewrite lookup_insert_ne; [done|intros <-; congruence]);
         done || lia).
      by rewrite Hx. }
  split.
  - destruct (equals_result st' this src g' s Hthis Hsrc' Hok' Hoks)
      as (b & -> & Hb).
    f_equal. apply Hb. right. split; [done|]. split; [done|].
    intros row col Hin. destruct (Hget row col Hin) as (x & Hx & Hy).
    exists x, x. auto.
  - destruct (equals_result st' src this s g' Hsrc' Hthis Hoks Hok')
      as (b & -> & Hb).
    f_equal. apply Hb. right. split; [done|]. split; [done|].
    intros row col Hin. destruct (Hget row col Hin) as (x & Hx & Hy).
    exists x, x. auto.
Qed.

(** X16. When the element type's [!=] never holds between a value and
    itself, a grid just made by the copy constructor, and a grid just
    assigned from a different grid, compare equal to the source with
    [equals], called on either of the two. *)
Theorem grid_copy_equals :
  (forall st (this src : loc),
      objects st !! this = None -> obj_ok st src ->
      exists st', copy_construct d st this src = Ok st'
                  /\ equals value_ne st' this src = Ok true
                  /\ equals value_ne st' src this = Ok true)
  /\ (forall st (this src : loc),
        this ≠ src -> obj_ok st this -> obj_ok st src ->
        separate st this src ->
        exists st', assign d st this src = Ok st'
                    /\ equals value_ne st' this src = Ok true
                    /\ equals value_ne st' src this = Ok true).
Proof.
  split.
  - intros [objs h] this src Hnew (s & Hs & Hsok). simpl in *.
    assert (Hne : this ≠ src) by (intros ->; congruence).
    destruct (rep_ok_array h s Hsok) as (arr & Harr & Hlen).
    unfold copy_construct. cbn [objects arrays]. rewrite Hs.
    unfold of_option. rewrite outcome_bind_Ok.
    rewrite (deepCopy_ok d h s arr Hsok) by done.
    rewrite outcome_bind_Ok. eexists. split; [done|].
    by apply deepCopy_equal.
  - intros [objs h] this src Hne (g & Hg & Hgok) (s & Hs & Hsok) Hsep.
    simpl in *.
    destruct (rep_ok_array h s Hsok) as (arr & Harr & Hlen).
    unfold assign. rewrite bool_decide_true by done. cbn [objects arrays].
    rewrite Hg, Hs. unfold of_option. rewrite !outcome_bind_Ok.
    assert (exists h1,
              delete_array h (elements g) = Ok h1
              /\ rep_ok h1 s
              /\ match elements s with
                 | Some q => h1 !! q = Some arr
                 | None => arr = []
                 end) as (h1 & Hdel & Hok1 & Harr1).
    { destruct (elements g) as [pg|] eqn:Hpg.
      - destruct Hgok as (_ & _ & _ & Hg4). rewrite Hpg in Hg4.
        destruct Hg4 as (arrg & Hpg' & _).
        exists (delete pg h). simpl.
        rewrite bool_decide_true by (by eexists). split; [done|].
        assert (Hq : forall q, elements s = Some q -> delete pg h !! q = h !! q).
        { intros q Hq. apply lookup_delete_ne. intros ->.
          by apply (Hsep g s _ Hg Hs Hpg). }
        split.
        + destruct Hsok as (? & ? & ? & Hs4). repeat split; try done.
          destruct (elements s) as [q|]; [|done].
          destruct Hs4 as (arr' & ? & ?). exists arr'.
          by rewrite Hq.
        + destruct (elements s) as [q|]; [|done]. by rewrite Hq.
      - exists h. simpl. split; [done|]. split; [done|].
        destruct (elements s); done. }
    rewrite Hdel, outcome_bind_Ok.
    rewrite (deepCopy_ok d h1 s arr Hok1) by done.
    rewrite outcome_bind_Ok. eexists. split; [done|].
    by apply deepCopy_equal.
Qed.

End GridEquals.

Lemma grid_equals_spec_witness :
  exists b,
    Grid.equals (fun x y => negb (x =? y)) Grid.sample_store 1%nat 2%nat = Ok b
    /\ Grid.grid_eq (fun x y => negb (x =? y)) Grid.sample_store 1%nat 2%nat
       = Ok b
    /\ Grid.grid_ne (fun x y => negb (x =? y)) Grid.sample_store 1%nat 2%nat
       = Ok (negb b)
    /\ (b = true <->
        1%nat = 2%nat
        \/ (Grid.nRows Grid.sample_grid = Grid.nRows (Grid.mkRep None 0 0)
            /\ Grid.nCols Grid.sample_grid = Grid.nCols (Grid.mkRep None 0 0)
            /\ forall row col,
                 Grid.inBounds Grid.sample_grid row col = true ->
                 exists x y,
                   Grid.get (Grid.arrays Grid.sample_store) Grid.sample_grid
                     row col = Ok x
                   /\ Grid.get (Grid.arrays Grid.sample_store)
                        (Grid.mkRep None 0 0) row col = Ok y
                   /\ negb (x =? y) = false)).
Proof.
  apply (grid_equals_spec (fun x y => negb (x =? y)) Grid.sample_store
           1%nat 2%nat Grid.sample_grid (Grid.mkRep None 0 0)).
  - reflexivity.
  - reflexivity.
  - exact sample_grid_ok.
  - unfold Grid.rep_ok, INT_MAX. simpl. lia.
Defined.

Lemma Z_neb_irrefl (x : Z) : negb (x =? x) = false.
Proof. by rewrite Z.eqb_refl. Qed.

Lemma grid_copy_equals_witness :
  exists st',
    Grid.copy_construct 0 Grid.sample_store 3%nat 1%nat = Ok st'
    /\ Grid.equals (fun x y => negb (x =? y)) st' 3%nat 1%nat = Ok true
    /\ Grid.equals (fun x y => negb (x =? y)) st' 1%nat 3%nat = Ok true.
Proof.
  apply (proj1 (grid_copy_equals 0 (fun x y => negb (x =? y)) Z_neb_irrefl)).
  - reflexivity.
  - exists Grid.sample_grid. split; [reflexivity | exact sample_grid_ok].
Defined.

Section MoreLexicon.

Import Lexicon.

Variable lex : Lexicon.



End MoreLexicon.

(** X19. Among the 7-bit characters the letters are the only ones whose
    [charToOrd] lies in 1..26: no other character is given the code of a
    letter. *)
Theorem charToOrd_only_letters (c : ascii) :
  char_code c < 128 ->
  (1 <= Lexicon.charToOrd c <= 26 <-> isLetter c).
Proof.
  intros H7. pose proof (char_code_range c) as Hc. split.
  - unfold Lexicon.charToOrd. rewrite char_value_7bit by done.
    unfold Lexicon.tolower, wrap_unsigned, isLetter,
      isUpperLetter, isLowerLetter.
    destruct ((65 <=? char_code c) && (char_code c <=? 90)) eqn:E;
      [by left|].
    intros Hord. right.
    destruct (Z_lt_le_dec (char_code c) 96) as [Hlt|Hge].
    + replace ((char_code c - 97 + 1) mod 2 ^ 32)
        with (char_code c - 96 + 2 ^ 32) in Hord; [lia|].
      apply Z.mod_unique with (q := -1); lia.
    + rewrite Z.mod_small in Hord by lia. lia.
  - intros Hl. rewrite charToOrd_letter by done.
    pose proof (tolower_letter c Hl). lia.
Qed.



Lemma charToOrd_only_letters_witness :
  1 <= Lexicon.charToOrd (char_of_code 81) <= 26
  <-> isLetter (char_of_code 81).
Proof.
  apply (charToOrd_only_letters (char_of_code 81)).
  vm_compute. reflexivity.
Defined.
